(** * edgeDetector: a Laplacian edge detector for P6 images

    Shallow embedding of [edge_detector.c] and the properties of its
    convolution worker, row partitioning, filter pass and P6 codec.

    Conventions of the embedding.
    - [unsigned char] is [byte]; [int] and [unsigned long] values are
      integers of [Z] with the conversions [to_int] (32 bits, two's
      complement) and [to_ulong] (64 bits) written where the C code
      converts or where unsigned arithmetic wraps.
    - A [PPMPixel *] buffer is a [list PPMPixel]; the buffer the worker
      threads share ([param->result]) is passed through the thread
      functions as the store they update in place.
    - [for] loops whose counter runs over a range known at loop entry
      are folds over that range; the [while] loops of [read_image],
      which wait for a character of the input, take fuel. *)

From Stdlib Require Import ZArith Lia List Strings.Byte Strings.String.
From stdpp Require Import base list gmap strings.

Local Open Scope Z_scope.

(** ** C integer types *)

Definition INT_MAX : Z := 2147483647.
Definition LONG_MAX : Z := 9223372036854775807.
Definition LONG_MIN : Z := - 9223372036854775808.

(** Conversion to [unsigned long]: reduction modulo 2^64. *)
Definition to_ulong (z : Z) : Z := z mod 2 ^ 64.

(** Conversion to [int]: two's complement on 32 bits. *)
Definition to_int (z : Z) : Z := (z + 2 ^ 31) mod 2 ^ 32 - 2 ^ 31.

(** [unsigned char] to [int], and [int] to [unsigned char]. *)
Definition byte_to_Z (c : byte) : Z := Z.of_N (Byte.to_N c).

Definition Z_to_byte (z : Z) : byte :=
  match Byte.of_N (Z.to_N (z mod 256)) with
  | Some c => c
  | None => x00
  end.

(** ** Data of the program *)

Definition LAPLACIAN_THREADS : Z := 23.
Definition FILTER_WIDTH : Z := 3.
Definition FILTER_HEIGHT : Z := 3.
Definition RGB_COMPONENT_COLOR : Z := 255.

Record PPMPixel : Type := mkPixel { r : byte; g : byte; b : byte }.

Definition set_r (v : byte) (p : PPMPixel) : PPMPixel := mkPixel v (g p) (b p).
Definition set_g (v : byte) (p : PPMPixel) : PPMPixel := mkPixel (r p) v (b p).
Definition set_b (v : byte) (p : PPMPixel) : PPMPixel := mkPixel (r p) (g p) v.

(** [struct parameter]. The field [result] of the C struct points to the
    buffer all workers write; it is the store argument of
    [compute_laplacian_threadfn]. *)
Record parameter : Type := mkParameter {
  image : list PPMPixel;
  w : Z;
  h : Z;
  start : Z;
  size : Z
}.

(** [p[i]] for a pixel buffer; outside the buffer the C program reads
    memory the model does not have, and the model answers a black pixel. *)
Definition load (p : list PPMPixel) (i : Z) : PPMPixel :=
  if i <? 0 then mkPixel x00 x00 x00
  else nth (Z.to_nat i) p (mkPixel x00 x00 x00).

(** [p[i].r = cr; p[i].g = cg; p[i].b = cb;]: three stores into the
    fields of one cell. A store outside the buffer is undefined in C; the
    model leaves the buffer as it is. *)
Definition store (p : list PPMPixel) (i : Z) (cr cg cb : byte) : list PPMPixel :=
  if i <? 0 then p
  else
    let n := Z.to_nat i in
    alter (set_b cb) n (alter (set_g cg) n (alter (set_r cr) n p)).

(** [for (int i = lo; i < hi; i++) body], for a bound [hi] of type
    [unsigned long] fixed at loop entry. The fold is the loop as long as
    the counter stays in the range of [int] and is not negative, which is
    the case for the images the properties below are about. *)
Definition for_range {S : Type} (lo hi : Z) (body : Z -> S -> S) (s : S) : S :=
  fold_left (fun s i => body i s) (seqZ lo (hi - lo)) s.

(** ** The convolution worker *)

Definition laplacian : list (list Z) :=
  [ [-1; -1; -1];
    [-1;  8; -1];
    [-1; -1; -1] ].

Definition laplacian_at (i j : Z) : Z :=
  nth (Z.to_nat j) (nth (Z.to_nat i) laplacian []) 0.

(** Truncate values smaller than zero to zero and larger than 255 to 255. *)
Definition truncate (v : Z) : Z :=
  if v <? 0 then 0 else if v >? 255 then 255 else v.

(** The two loops over the filter, for the pixel in column
    [iteratorImageWidth] and row [iteratorImageHeight]: the values of
    [red], [green] and [blue] after the loops. *)
Definition filter_sums (param : parameter)
    (iteratorImageWidth iteratorImageHeight : Z) : Z * Z * Z :=
  for_range 0 FILTER_WIDTH (fun iteratorFilterWidth =>
    for_range 0 FILTER_HEIGHT (fun iteratorFilterHeight '(red, green, blue) =>
      let x_coordinate :=
        to_int (to_ulong (to_ulong (to_int (iteratorImageWidth - FILTER_WIDTH / 2
                                            + iteratorFilterWidth))
                          + w param) mod w param) in
      let y_coordinate :=
        to_int (to_ulong (to_ulong (to_int (iteratorImageHeight - FILTER_HEIGHT / 2
                                            + iteratorFilterHeight))
                          + h param) mod h param) in
      let px :=
        load (image param)
             (to_ulong (to_ulong (to_ulong y_coordinate * w param)
                        + to_ulong x_coordinate)) in
      let k := laplacian_at iteratorFilterHeight iteratorFilterWidth in
      (to_int (red + byte_to_Z (r px) * k),
       to_int (green + byte_to_Z (g px) * k),
       to_int (blue + byte_to_Z (b px) * k))))
    (0, 0, 0).

(** The body of the two loops over the image. *)
Definition filter_pixel (param : parameter)
    (iteratorImageWidth iteratorImageHeight : Z)
    (result : list PPMPixel) : list PPMPixel :=
  let '(red, green, blue) :=
    filter_sums param iteratorImageWidth iteratorImageHeight in
  store result
        (to_ulong (to_ulong (to_ulong iteratorImageHeight * w param)
                   + to_ulong iteratorImageWidth))
        (Z_to_byte (truncate red)) (Z_to_byte (truncate green))
        (Z_to_byte (truncate blue)).

Definition compute_laplacian_threadfn (param : parameter)
    (result : list PPMPixel) : list PPMPixel :=
  for_range 0 (w param) (fun iteratorImageWidth =>
    for_range (to_int (start param)) (to_ulong (start param + size param))
      (fun iteratorImageHeight =>
         filter_pixel param iteratorImageWidth iteratorImageHeight))
    result.

(** ** The filter engine *)

Definition sizeof_PPMPixel : Z := 3.

(** [malloc (nbytes)] for a pixel buffer: room for [nbytes / 3] pixels
    whose contents are indeterminate; [junk] gives what the memory holds. *)
Definition malloc (junk : nat -> PPMPixel) (nbytes : Z) : list PPMPixel :=
  map junk (seq 0 (Z.to_nat (nbytes / sizeof_PPMPixel))).

(** [params[i]] as the first loop of [apply_filters] fills it, for
    [nthreads] worker threads ([LAPLACIAN_THREADS] in the source). *)
Definition make_param (nthreads : Z) (image : list PPMPixel) (w h : Z) (i : Z)
  : parameter :=
  let work := to_int (h / to_ulong nthreads) in
  let start := to_ulong (to_int (i * work)) in
  let size :=
    if i =? nthreads - 1 then to_ulong (h - start) else to_ulong work in
  mkParameter image w h start size.

Definition params (nthreads : Z) (image : list PPMPixel) (w h : Z)
  : list parameter :=
  map (make_param nthreads image w h) (seqZ 0 nthreads).

(** [struct timeval] and the elapsed time the source adds to
    [*elapsedTime]; the [double] number of seconds is kept exactly, as a
    number of microseconds. *)
Record timeval : Type := mkTimeval { tv_sec : Z; tv_usec : Z }.

Definition elapsed (t0 t1 : timeval) : Z :=
  (tv_sec t1 - tv_sec t0) * 1000000 + (tv_usec t1 - tv_usec t0).

(** The workers run one after the other, in the order of their creation:
    one of the executions the threads of the source can have. The others
    are the executions of [run_sched] below. *)
Definition run_workers (ps : list parameter) (result : list PPMPixel)
  : list PPMPixel :=
  fold_left (fun result param => compute_laplacian_threadfn param result)
            ps result.

(** [apply_filters], for [nthreads] workers ([LAPLACIAN_THREADS] in the
    source): the result buffer and the new value of [*elapsedTime]. [junk]
    is what the memory of the result holds when [malloc] returns it, [t0]
    and [t1] are the two readings of [gettimeofday]. *)
Definition apply_filters (nthreads : Z) (junk : nat -> PPMPixel)
    (image : list PPMPixel) (w h : Z) (t0 t1 : timeval) (elapsedTime : Z)
  : list PPMPixel * Z :=
  let result := malloc junk (to_ulong (to_ulong (w * h) * sizeof_PPMPixel)) in
  (run_workers (params nthreads image w h) result,
   elapsedTime + elapsed t0 t1).

(** *** Interleaved executions of the workers

    A worker is a sequence of pixel steps: one step computes the sums of
    one pixel from the source image and stores the three channels. A
    schedule names, step after step, the thread that runs next. *)
Record thread : Type := mkThread {
  th_param : parameter;
  th_todo : list (Z * Z)
}.

(** The pixels of a worker, as (column, row), in the order of its loops. *)
Definition thread_steps (param : parameter) : list (Z * Z) :=
  flat_map (fun x =>
              map (fun y => (x, y))
                  (seqZ (to_int (start param))
                        (to_ulong (start param + size param)
                         - to_int (start param))))
           (seqZ 0 (w param - 0)).

Definition spawn (ps : list parameter) : list thread :=
  map (fun param => mkThread param (thread_steps param)) ps.

Definition sched_step (t : nat) (st : list thread * list PPMPixel)
  : list thread * list PPMPixel :=
  match fst st !! t with
  | Some (mkThread param ((x, y) :: todo)) =>
      (<[t := mkThread param todo]> (fst st), filter_pixel param x y (snd st))
  | _ => st
  end.

Definition run_sched (sched : list nat) (st : list thread * list PPMPixel)
  : list thread * list PPMPixel :=
  fold_left (fun st t => sched_step t st) sched st.

(** All threads have finished: every [pthread_join] returns. *)
Definition all_done (ths : list thread) : bool :=
  forallb (fun th => match th_todo th with [] => true | _ => false end) ths.

(** The filter pass under a schedule: the buffer handed to the caller
    when the schedule runs every worker to its end. *)
Definition apply_filters_sched (nthreads : Z) (junk : nat -> PPMPixel)
    (image : list PPMPixel) (w h : Z) (sched : list nat)
  : option (list PPMPixel) :=
  let result := malloc junk (to_ulong (to_ulong (w * h) * sizeof_PPMPixel)) in
  let st := run_sched sched (spawn (params nthreads image w h), result) in
  if all_done (fst st) then Some (snd st) else None.

(** *** The convolution as the specification words it

    [sum_c] is the sum over dx, dy in {-1,0,1} of
    kernel[dy+1][dx+1] * source[(y+dy) mod H][(x+dx) mod W].c; the result
    pixel holds the sums clamped to [0,255]. *)
Definition kernel : list (list Z) :=
  [ [-1; -1; -1]; [-1; 8; -1]; [-1; -1; -1] ].

Definition kernel_at (i j : Z) : Z :=
  nth (Z.to_nat j) (nth (Z.to_nat i) kernel []) 0.

Definition source_at (source : list PPMPixel) (W : Z) (row col : Z) : PPMPixel :=
  load source (row * W + col).

Definition Zsum (l : list Z) : Z := fold_right Z.add 0 l.

Definition conv_sum (c : PPMPixel -> byte) (source : list PPMPixel)
    (W H : Z) (x y : Z) : Z :=
  Zsum (flat_map (fun dy =>
          map (fun dx =>
                 kernel_at (dy + 1) (dx + 1)
                 * byte_to_Z (c (source_at source W ((y + dy) mod H)
                                           ((x + dx) mod W))))
              [-1; 0; 1])
        [-1; 0; 1]).

Definition clamp (v : Z) : Z := Z.max 0 (Z.min 255 v).

Definition conv_pixel (source : list PPMPixel) (W H : Z) (x y : Z) : PPMPixel :=
  mkPixel (Z_to_byte (clamp (conv_sum r source W H x y)))
          (Z_to_byte (clamp (conv_sum g source W H x y)))
          (Z_to_byte (clamp (conv_sum b source W H x y))).

(** The whole image convolved in one sequential pass, row by row. *)
Definition convolve_image (source : list PPMPixel) (W H : Z) : list PPMPixel :=
  flat_map (fun y => map (fun x => conv_pixel source W H x y) (seqZ 0 W))
           (seqZ 0 H).

(** The partitions of the rows, as (start_row, row_count). *)
Definition partitions (nthreads : Z) (h : Z) : list (Z * Z) :=
  map (fun param => (start param, size param)) (params nthreads [] 0 h).

(** ** Files and streams *)

(** The files the program can name: their contents, and the paths that
    cannot be opened for writing. *)
Record filesystem : Type := mkFs {
  files : gmap string (list byte);
  unwritable : gset string
}.

(** [fopen (filename, "rb")]: the stream is the bytes still to be read. *)
Definition fopen_rb (fs : filesystem) (filename : string) : option (list byte) :=
  files fs !! filename.

(** [fopen (filename, "wb")] answers whether the stream could be opened. *)
Definition fopen_wb (fs : filesystem) (filename : string) : bool :=
  bool_decide (filename ∉ unwritable fs).

Definition EOF : Z := -1.
Definition ch (c : byte) : Z := byte_to_Z c.
Definition newline : byte := x0a.
Definition nl : string := String (Ascii.ascii_of_byte newline) EmptyString.

Definition getc (fp : list byte) : Z * list byte :=
  match fp with
  | [] => (EOF, [])
  | c :: fp' => (byte_to_Z c, fp')
  end.

Definition ungetc (x : Z) (fp : list byte) : list byte :=
  if x =? EOF then fp else Z_to_byte x :: fp.

(** The characters [fgets] reads: at most [n], up to and with a newline. *)
Fixpoint fgets_chars (n : nat) (fp : list byte) : list byte * list byte :=
  match n, fp with
  | O, _ => ([], fp)
  | _, [] => ([], [])
  | S n', c :: fp' =>
      if byte_to_Z c =? ch newline then ([c], fp')
      else let '(l, rest) := fgets_chars n' fp' in (c :: l, rest)
  end.

(** [fgets (buff, n, fp)]: the buffer with its terminating zero, or
    [None] for the null pointer when nothing could be read. *)
Definition fgets (n : Z) (fp : list byte) : option (list byte) * list byte :=
  let '(l, rest) := fgets_chars (Z.to_nat (n - 1)) fp in
  match l with
  | [] => (None, rest)
  | _ => (Some (l ++ [x00]), rest)
  end.

Definition isspace (c : Z) : bool := (c =? 32) || ((9 <=? c) && (c <=? 13)).
Definition isdigit (c : Z) : bool := (ch "0" <=? c) && (c <=? ch "9").

Fixpoint skip_space (fp : list byte) : list byte :=
  match fp with
  | [] => []
  | c :: fp' => if isspace (byte_to_Z c) then skip_space fp' else fp
  end.

Fixpoint scan_digits (acc : Z) (fp : list byte) : Z * list byte :=
  match fp with
  | [] => (acc, [])
  | c :: fp' =>
      if isdigit (byte_to_Z c)
      then scan_digits (acc * 10 + (byte_to_Z c - ch "0")) fp'
      else (acc, fp)
  end.

(** A number too large for [long] is read as the nearest [long]. *)
Definition clamp_long (v : Z) : Z := Z.max LONG_MIN (Z.min LONG_MAX v).

(** One decimal conversion of [fscanf] ([%ld], [%d]): white space, an
    optional sign, digits. [None] when the input has no number there. *)
Definition scan_integer (fp : list byte) : option (Z * list byte) :=
  let fp := skip_space fp in
  let '(neg, fp) :=
    match fp with
    | c :: fp' =>
        if byte_to_Z c =? ch "-" then (true, fp')
        else if byte_to_Z c =? ch "+" then (false, fp')
        else (false, fp)
    | [] => (false, [])
    end in
  match fp with
  | c :: _ =>
      if isdigit (byte_to_Z c) then
        let '(v, rest) := scan_digits 0 fp in
        Some (clamp_long (if neg then - v else v), rest)
      else None
  | [] => None
  end.

(** [fscanf (fp, "%ld %ld", width, height)]: the value returned, the two
    numbers as stored in the [unsigned long] variables, the stream. *)
Definition fscanf_ld_ld (fp : list byte) : Z * (Z * Z) * list byte :=
  match scan_integer fp with
  | None => (match skip_space fp with [] => EOF | _ => 0 end, (0, 0), fp)
  | Some (width, fp1) =>
      match scan_integer (skip_space fp1) with
      | None => (1, (to_ulong width, 0), fp1)
      | Some (height, fp2) => (2, (to_ulong width, to_ulong height), fp2)
      end
  end.

(** [fscanf (fp, "%d", &rgb_component)]. *)
Definition fscanf_d (fp : list byte) : Z * Z * list byte :=
  match scan_integer fp with
  | None => (match skip_space fp with [] => EOF | _ => 0 end, 0, fp)
  | Some (v, fp1) => (1, to_int v, fp1)
  end.

(** [fread (rgb_color, 3, 1, fp)]: one item of three bytes, or none. *)
Definition fread3 (fp : list byte) : option (byte * byte * byte) * list byte :=
  match fp with
  | c0 :: c1 :: c2 :: fp' => (Some (c0, c1, c2), fp')
  | _ => (None, [])
  end.

(** Decimal digits of a number that fits [unsigned long] (20 digits at most). *)
Fixpoint digits (n : nat) (v : Z) (acc : list byte) : list byte :=
  match n with
  | O => acc
  | S n' =>
      let acc' := Z_to_byte (ch "0" + v mod 10) :: acc in
      if v / 10 =? 0 then acc' else digits n' (v / 10) acc'
  end.

(** [%lu] of [fprintf]. *)
Definition print_lu (v : Z) : list byte := digits 20 (to_ulong v) [].

(** [%d] of [fprintf] and [snprintf]. *)
Definition print_d (v : Z) : list byte :=
  if to_int v <? 0 then "-"%byte :: digits 20 (- to_int v) []
  else digits 20 (to_int v) [].

(** ** The image codec *)

(** The ways [read_image] ends the thread, and the result of a call:
    the function returns, or it writes a message to [stderr] and the
    thread ends in [pthread_exit]. *)
Inductive failure : Type := IOError | FormatError | SizeError | RangeError.

Inductive result (A : Type) : Type :=
| Returned (a : A)
| Exited (e : failure) (msg : string).

Arguments Returned {A} a.
Arguments Exited {A} e msg.

(** [while (getc (fp) != '\n');] *)
Fixpoint skip_line (fuel : nat) (fp : list byte) : option (list byte) :=
  match fuel with
  | O => None
  | S fuel' =>
      let '(c, fp') := getc fp in
      if c =? ch newline then Some fp' else skip_line fuel' fp'
  end.

(** [while (x == '#') { while (getc (fp) != '\n'); x = getc (fp); }] *)
Fixpoint skip_comments (fuel : nat) (x : Z) (fp : list byte)
  : option (Z * list byte) :=
  match fuel with
  | O => None
  | S fuel' =>
      if x =? ch "#" then
        match skip_line fuel' fp with
        | None => None
        | Some fp' => let '(x', fp'') := getc fp' in skip_comments fuel' x' fp''
        end
      else Some (x, fp)
  end.

(** The loop that reads the pixels, from [i] on:
    [for (; i < n; i++) { if (fread (rgb_color, 3, 1, fp) < 1) break; img[i] = ...; }] *)
Fixpoint read_pixels (fuel : nat) (i : Z) (n : Z) (fp : list byte)
    (img : list PPMPixel) : option (list PPMPixel) :=
  match fuel with
  | O => None
  | S fuel' =>
      if to_ulong i <? n then
        match fread3 fp with
        | (None, _) => Some img
        | (Some (c0, c1, c2), fp') =>
            read_pixels fuel' (to_int (i + 1)) n fp' (store img i c0 c1 c2)
        end
      else Some img
  end.

(** [sizeof (buff)] is [sizeof (char * ) * 8]. *)
Definition sizeof_buff : Z := 8 * 8.

(** The header of the file: from the format line to the newline after the
    maximum colour value. Answers the width, the height and the stream at
    the first pixel. *)
Definition read_header (fuel : nat) (filename : string) (fp : list byte)
  : option (result (Z * Z * list byte)) :=
  let '(buff, fp) := fgets sizeof_buff fp in
  if match buff with
     | None => true
     | Some buff =>
         negb (byte_to_Z (nth 0 buff x00) =? ch "P")
         || negb (byte_to_Z (nth 1 buff x00) =? ch "6")
     end
  then Some (Exited FormatError
               ("Invalid image format error must be 'P6'" +:+ nl))
  else
    let '(x, fp) := getc fp in
    match skip_comments fuel x fp with
    | None => None
    | Some (x, fp) =>
        let fp := ungetc x fp in
        let '(n, (width, height), fp) := fscanf_ld_ld fp in
        if negb (n =? 2)
        then Some (Exited SizeError
                     ("Invalid image size error '" +:+ filename +:+ "'" +:+ nl))
        else
          let '(n, rgb_component, fp) := fscanf_d fp in
          if negb (n =? 1) || negb (rgb_component =? RGB_COMPONENT_COLOR)
          then Some (Exited RangeError
                       ("'" +:+ filename
                        +:+ "' is not have a valid 255 components" +:+ nl))
          else
            match skip_line fuel fp with
            | None => None
            | Some fp => Some (Returned (width, height, fp))
            end
    end.

(** [read_image]: the pixel buffer with the width and the height stored
    through the two pointers; [None] when the fuel does not suffice. *)
Definition read_image (fuel : nat) (junk : nat -> PPMPixel)
    (fs : filesystem) (filename : string)
  : option (result (list PPMPixel * Z * Z)) :=
  match fopen_rb fs filename with
  | None =>
      Some (Exited IOError ("Unable to open file '" +:+ filename +:+ "'" +:+ nl))
  | Some fp =>
      match read_header fuel filename fp with
      | None => None
      | Some (Exited e msg) => Some (Exited e msg)
      | Some (Returned (width, height, fp)) =>
          let img :=
            malloc junk (to_ulong (to_ulong (width * height) * sizeof_PPMPixel)) in
          match read_pixels fuel 0 (to_ulong (width * height)) fp img with
          | None => None
          | Some img => Some (Returned (img, width, height))
          end
      end
  end.

(** The bytes of a pixel buffer, as [fwrite] sees them. *)
Definition pixel_bytes (image : list PPMPixel) : list byte :=
  flat_map (fun px => [r px; g px; b px]) image.

(** What a call of [write_image] does. When the stream cannot be opened
    the source prints its message and goes on to [fprintf], [fwrite] and
    [fclose] with the null stream: the behaviour is undefined. *)
Inductive written : Type :=
| Written (fs : filesystem)
| NullStream (msg : string).

Definition write_image (image : list PPMPixel) (filename : string)
    (width height : Z) (fs : filesystem) : written :=
  if fopen_wb fs filename then
    let header :=
      ["P"; "6"; newline]%byte
      ++ print_lu width ++ [" "%byte] ++ print_lu height ++ [newline]
      ++ print_d RGB_COMPONENT_COLOR ++ [newline] in
    let data :=
      take (Z.to_nat (to_ulong (3 * width) * height)) (pixel_bytes image) in
    Written (mkFs (<[filename := header ++ data]> (files fs)) (unwritable fs))
  else
    NullStream ("Unable to open file '" +:+ filename +:+ "'" +:+ nl).

(** ** The batch *)

(** [struct file_name_args]. *)
Record file_name_args : Type := mkArgs {
  input_file_name : string;
  output_file_name : string
}.

(** What a task meets that the program text does not fix: the contents
    of the memory [malloc] hands out for the image and for the result,
    and the two readings of the clock in [apply_filters]. *)
Record task_env : Type := mkEnv {
  img_junk : nat -> PPMPixel;
  result_junk : nat -> PPMPixel;
  clock_start : timeval;
  clock_end : timeval
}.

(** The state the tasks share: the files, the lines on [stderr] and the
    global [total_elapsed_time]. *)
Record world : Type := mkWorld {
  fs : filesystem;
  stderr : list string;
  total_elapsed_time : Z
}.

(** How the thread of a task ends: its function returns, the thread
    leaves through [pthread_exit] in [read_image], or the task runs into
    the undefined behaviour of [write_image], which no thread of the
    process survives. *)
Inductive task_end : Type :=
| ThreadReturned
| ThreadExited (e : failure)
| ProcessUndefined.

Definition manage_image_file (fuel : nat) (env : task_env)
    (file_name : file_name_args) (wd : world) : option (world * task_end) :=
  match read_image fuel (img_junk env) (fs wd) (input_file_name file_name) with
  | None => None
  | Some (Exited e msg) =>
      Some (mkWorld (fs wd) (stderr wd ++ [msg]) (total_elapsed_time wd),
            ThreadExited e)
  | Some (Returned (img, width, height)) =>
      let '(result, total) :=
        apply_filters LAPLACIAN_THREADS (result_junk env) img width height
                      (clock_start env) (clock_end env)
                      (total_elapsed_time wd) in
      match write_image result (output_file_name file_name) width height (fs wd) with
      | Written fs' => Some (mkWorld fs' (stderr wd) total, ThreadReturned)
      | NullStream msg =>
          Some (mkWorld (fs wd) (stderr wd ++ [msg]) total, ProcessUndefined)
      end
  end.

(** The tasks of a batch, one after the other; [None] when a task never
    ends, and the process is lost as soon as one task is. *)
Fixpoint run_tasks (fuel : nat) (tasks : list (task_env * file_name_args))
    (wd : world) : option (world * bool) :=
  match tasks with
  | [] => Some (wd, true)
  | (env, file_name) :: tasks' =>
      match manage_image_file fuel env file_name wd with
      | None => None
      | Some (wd', ProcessUndefined) => Some (wd', false)
      | Some (wd', _) => run_tasks fuel tasks' wd'
      end
  end.

(** [snprintf (output_file_name, 20, "laplacian%d.ppm", i + 1)] *)
Definition output_name (i : Z) : string :=
  string_of_list_byte
    (take 19 (list_byte_of_string "laplacian" ++ print_d (i + 1)
              ++ list_byte_of_string ".ppm")).

Definition make_args (i : Z) (input : string) : file_name_args :=
  mkArgs input (output_name i).

(** How a run of the program ends: [main] returns its exit status after
    the lines it printed on [stdout] (the total time, in microseconds,
    for the line [Time:]), or the process is lost. *)
Inductive run_end : Type :=
| Exit (status : Z) (time_line : option Z)
| Lost.

(** [main], with [argv] from [argv[0]] on; [envs i] is the environment of
    the task of [argv[i + 1]]. The threads of the tasks are run in the
    order of their creation. *)
Definition main (fuel : nat) (envs : nat -> task_env) (argv : list string)
    (wd : world) : option (world * run_end) :=
  match argv with
  | [] => Some (wd, Exit 0 None)
  | [prog] =>
      Some (mkWorld (fs wd)
                    (stderr wd ++ ["Usage: " +:+ prog +:+ " filename[s]" +:+ nl])
                    (total_elapsed_time wd),
            Exit 0 None)
  | prog :: inputs =>
      let tasks :=
        imap (fun i input => (envs i, make_args (Z.of_nat i) input)) inputs in
      match run_tasks fuel tasks wd with
      | None => None
      | Some (wd', true) => Some (wd', Exit 0 (Some (total_elapsed_time wd')))
      | Some (wd', false) => Some (wd', Lost)
      end
  end.

(** ** Notions the properties are stated with *)

(** The pixel of column [x] and row [y] is cell [y * W + x]. *)
Definition cell (W : Z) (xy : Z * Z) : nat := Z.to_nat (snd xy * W + fst xy).

Definition in_image (W H : Z) (xy : Z * Z) : Prop :=
  0 <= fst xy < W /\ 0 <= snd xy < H.

(** One pixel step of a worker. *)
Definition pixel_step (param : parameter) (result : list PPMPixel) (xy : Z * Z)
  : list PPMPixel :=
  filter_pixel param (fst xy) (snd xy) result.

(** The image parameters of a worker, apart from its range of rows. *)
Definition same_image (source : list PPMPixel) (W H : Z) (param : parameter) : Prop :=
  image param = source /\ w param = W /\ h param = H.

(** The rows of a worker lie in the image. *)
Definition rows_in_image (param : parameter) : Prop :=
  0 <= start param /\ 0 <= size param /\ start param + size param <= h param.

(** [contiguous a ps c]: the partitions [ps], as (start_row, row_count),
    follow one another from row [a] to row [c] with no gap and no overlap,
    each with a count that is not negative. *)
Inductive contiguous : Z -> list (Z * Z) -> Z -> Prop :=
| contiguous_nil a : contiguous a [] a
| contiguous_cons a n ps c :
    0 <= n -> contiguous (a + n) ps c -> contiguous a ((a, n) :: ps) c.

(** The partitions in closed form: chunks of [H / nthreads] rows, and the
    rows that remain for the last worker. *)
Definition chunk_of (nthreads H i : Z) : Z * Z :=
  (i * (H / nthreads),
   if i =? nthreads - 1 then H - i * (H / nthreads) else H / nthreads).

(** A cell holds the convolution of its pixel. *)
Definition convolved (source : list PPMPixel) (W H : Z)
    (result : list PPMPixel) (xy : Z * Z) : Prop :=
  result !! cell W xy = Some (conv_pixel source W H (fst xy) (snd xy)).

(** A thread of the pass over [source]: its parameters are those of the
    image and the pixels it has still to do lie in the image. *)
Definition thread_ok (source : list PPMPixel) (W H : Z) (th : thread) : Prop :=
  same_image source W H (th_param th)
  /\ Forall (in_image W H) (th_todo th).

(** The invariant of the interleaved executions: the buffer keeps its
    size, and a pixel of the image is either convolved already or still
    among the steps of a thread. *)
Definition pass_invariant (source : list PPMPixel) (W H : Z)
    (st : list thread * list PPMPixel) : Prop :=
  length (snd st) = Z.to_nat (W * H)
  /\ Forall (thread_ok source W H) (fst st)
  /\ forall xy, in_image W H xy ->
       convolved source W H (snd st) xy
       \/ exists (t : nat) th, fst st !! t = Some th /\ xy ∈ th_todo th.

(** The number of pixel steps the threads have still to do. *)
Definition steps_left (ths : list thread) : nat :=
  fold_right (fun th n => (length (th_todo th) + n)%nat) 0%nat ths.

(** The pixels a sequence of bytes holds, three bytes to a pixel; bytes
    left over at the end make no pixel. *)
Fixpoint triplets (data : list byte) : list PPMPixel :=
  match data with
  | c0 :: c1 :: c2 :: data' => mkPixel c0 c1 c2 :: triplets data'
  | _ => []
  end.

(** The header [write_image] writes. *)
Definition header (width height : Z) : list byte :=
  ["P"; "6"; newline]%byte
  ++ print_lu width ++ [" "%byte] ++ print_lu height ++ [newline]
  ++ print_d RGB_COMPONENT_COLOR ++ [newline].

(** A stream that is at its end or at a character that is not a digit. *)
Definition no_digit_ahead (fp : list byte) : Prop :=
  match fp with
  | [] => True
  | c :: _ => isdigit (byte_to_Z c) = false
  end.

(** The test of the format line: the first two bytes of the stream are
    not 'P' and '6'. *)
Definition marker_missing (fp : list byte) : bool :=
  match fp with
  | c0 :: c1 :: _ => negb ((byte_to_Z c0 =? ch "P") && (byte_to_Z c1 =? ch "6"))
  | _ => true
  end.



(** ** Sample inputs *)

(** A header that ends inside a comment line, and one that ends before
    the newline after the maximum colour value. *)
Definition ends_in_comment : list byte :=
  ["P"; "6"; newline; "#"; "a"; "b"; "c"]%byte.

Definition ends_after_maxval : list byte :=
  ["P"; "6"; newline; "1"; " "; "1"; newline; "2"; "5"; "5"]%byte.

(** A 2x2 image of pure red, a 1x1 image, and files that hold them. *)
Definition red_pixel : PPMPixel := mkPixel xff x00 x00.
Definition red_2x2 : list PPMPixel := [red_pixel; red_pixel; red_pixel; red_pixel].
Definition one_pixel : list PPMPixel := [mkPixel x10 x20 x30].

Definition red_2x2_file : list byte := header 2 2 ++ pixel_bytes red_2x2.
Definition one_pixel_file : list byte := header 1 1 ++ pixel_bytes one_pixel.

(** A file whose first line is not the format marker. *)
Definition bad_marker_file : list byte :=
  ["P"; "5"; newline; "1"; " "; "1"; newline; "2"; "5"; "5"; newline;
   x00; x00; x00]%byte.

(** A 3x3 image whose pixel (0,0) has dark neighbours inside the image
    and bright ones across the borders. *)
Definition dim : PPMPixel := mkPixel x1e x1e x1e.
Definition dark : PPMPixel := mkPixel x00 x00 x00.
Definition bright : PPMPixel := mkPixel x64 x64 x64.
Definition corner_3x3 : list PPMPixel :=
  [dim;    dark;   bright;
   dark;   dark;   bright;
   bright; bright; bright].


Definition grey_junk (i : nat) : PPMPixel := mkPixel x07 x07 x07.

Definition sample_env : task_env :=
  mkEnv grey_junk grey_junk (mkTimeval 10 900000) (mkTimeval 12 100000).

Definition sample_fs : filesystem :=
  mkFs (<["a.ppm"%string := red_2x2_file]>
          (<["bad.ppm"%string := bad_marker_file]>
             (<["c.ppm"%string := one_pixel_file]> ∅)))
       ∅.

(** The same files where [laplacian1.ppm] cannot be opened for writing. *)
Definition locked_fs : filesystem :=
  mkFs (files sample_fs) {["laplacian1.ppm"%string]}.

(** A file whose first line goes on after the marker. *)
Definition long_marker_file : list byte :=
  ["P"; "6"; "x"; "y"; "z"; newline; "1"; " "; "1"; newline;
   "2"; "5"; "5"; newline; x10; x20; x30]%byte.

(** The world after the task of [a.ppm] in the sample batch. *)
Definition after_first_task : world :=
  mkWorld
    (mkFs (<["laplacian1.ppm"%string :=
               header 2 2 ++ pixel_bytes (replicate 4 (mkPixel x00 x00 x00))]>
             (files sample_fs))
          ∅)
    [] 1200000.


(** ** Notions of the further properties *)

(** The rows of a worker, as a predicate on the row. *)
Definition in_rows (param : parameter) (y : Z) : Prop :=
  start param <= y < start param + size param.

(** The comment lines of a header: each is a '#', a text and a newline. *)
Definition comment_lines (comments : list (list byte)) : list byte :=
  flat_map (fun text => "#"%byte :: text ++ [newline]) comments.

(** A text without a newline. *)
Definition one_line (text : list byte) : Prop :=
  Forall (fun c => byte_to_Z c <> ch newline) text.

(** The stream is not at a '#'. *)
Definition no_comment_ahead (fp : list byte) : Prop :=
  fst (getc fp) <> ch "#".

(** The format line of a P6 file. *)
Definition marker : list byte := ["P"; "6"; newline]%byte.




(** The file [filename] holds the image [image] of [W] columns and [H]
    rows as [write_image] writes it, with sizes the counters of the
    program can count. *)
Definition well_formed_input (fs : filesystem) (filename : string)
    (image : list PPMPixel) (W H : Z) : Prop :=
  0 < W <= INT_MAX /\ 0 < H <= INT_MAX /\ W * H <= INT_MAX
  /\ length image = Z.to_nat (W * H)
  /\ fopen_rb fs filename = Some (header W H ++ pixel_bytes image).



(** ** More sample inputs *)




(** A 1x1 file with a comment line, and the same file without it. *)
Definition sizes_1x1 : list byte :=
  print_lu 1 ++ " "%byte :: print_lu 1
  ++ newline :: print_lu 255 ++ [newline; x10; x20; x30]%byte.

Definition commented_file : list byte :=
  marker ++ comment_lines [["m"; "a"; "d"; "e"]%byte] ++ sizes_1x1.

Definition plain_file : list byte := marker ++ sizes_1x1.

(** A 1x1 file with 16 bits to the channel. *)
Definition deep_file : list byte :=
  marker ++ print_lu 1 ++ " "%byte :: print_lu 1
  ++ newline :: print_lu 65535 ++ [newline; x10; x20; x30]%byte.

(** A file with a comment after its sizes. *)
Definition late_comment_file : list byte :=
  marker ++ print_lu 1 ++ " "%byte :: print_lu 1
  ++ newline :: "#"%byte :: ["c"; newline; "2"; "5"; "5"; newline]%byte.

(** A file that ends after the digits of the maximum colour value. *)
Definition cut_file : list byte :=
  marker ++ print_lu 2 ++ " "%byte :: print_lu 2
  ++ newline :: print_lu 255 ++ [].

(** The 2x2 red image followed by two bytes more. *)
Definition long_file : list byte :=
  header 2 2 ++ pixel_bytes red_2x2 ++ [x01; x02]%byte.


(** The stream is at its end, or at a character with which no number
    and no comment starts. *)
Definition no_number_ahead (fp : list byte) : Prop :=
  match fp with
  | [] => True
  | c :: _ =>
      isspace (byte_to_Z c) = false /\ isdigit (byte_to_Z c) = false
      /\ byte_to_Z c <> ch "-" /\ byte_to_Z c <> ch "+"
      /\ byte_to_Z c <> ch "#"
  end.

(** A file with a word where the sizes should be. *)
Definition wordy_file : list byte :=
  marker ++ ["w"; "i"; "d"; "e"; newline]%byte.

(** * Properties *)

(** ** Integer conversions and bytes *)

Lemma to_ulong_small z : 0 <= z < 2 ^ 64 -> to_ulong z = z.
Proof. intros Hz. unfold to_ulong. apply Z.mod_small. exact Hz. Qed.

Lemma to_int_small z : - 2 ^ 31 <= z < 2 ^ 31 -> to_int z = z.
Proof. intros Hz. unfold to_int. rewrite Z.mod_small; lia. Qed.

Lemma to_ulong_range z : 0 <= to_ulong z < 2 ^ 64.
Proof. unfold to_ulong. apply Z.mod_pos_bound. lia. Qed.

Lemma byte_to_Z_range c : 0 <= byte_to_Z c <= 255.
Proof.
  unfold byte_to_Z. pose proof (Byte.to_N_bounded c) as Hc.
  split; [apply N2Z.is_nonneg | lia].
Qed.

Lemma Z_to_byte_to_Z c : Z_to_byte (byte_to_Z c) = c.
Proof.
  unfold Z_to_byte. pose proof (byte_to_Z_range c) as Hc.
  rewrite Z.mod_small by lia. unfold byte_to_Z.
  rewrite N2Z.id, Byte.of_to_N. reflexivity.
Qed.

Lemma byte_to_Z_to_byte z : 0 <= z <= 255 -> byte_to_Z (Z_to_byte z) = z.
Proof.
  intros Hz. unfold Z_to_byte, byte_to_Z. rewrite Z.mod_small by lia.
  destruct (Byte.of_N (Z.to_N z)) as [c|] eqn:E.
  - apply Byte.to_of_N in E. rewrite E. lia.
  - pose proof (Byte.to_of_N_option_map (Z.to_N z)) as Hm.
    rewrite E in Hm. simpl in Hm.
    destruct (N.leb_spec (Z.to_N z) 255); [discriminate | lia].
Qed.

Lemma byte_to_Z_inj c1 c2 : byte_to_Z c1 = byte_to_Z c2 -> c1 = c2.
Proof.
  intros E. rewrite <- (Z_to_byte_to_Z c1), <- (Z_to_byte_to_Z c2).
  rewrite E. reflexivity.
Qed.

Lemma truncate_clamp v : truncate v = clamp v.
Proof.
  unfold truncate, clamp.
  destruct (Z.ltb_spec v 0); [lia |].
  destruct (Z.gtb_spec v 255); lia.
Qed.

Lemma clamp_range v : 0 <= clamp v <= 255.
Proof. unfold clamp. lia. Qed.

(** ** Buffers *)

Lemma store_insert p i cr cg cb :
  0 <= i -> store p i cr cg cb = <[Z.to_nat i := mkPixel cr cg cb]> p.
Proof.
  intros Hi. unfold store. destruct (Z.ltb_spec i 0); [lia |].
  apply list_eq. intros j.
  destruct (decide (j = Z.to_nat i)) as [-> | Hne].
  - rewrite !list_lookup_alter_eq.
    destruct (p !! Z.to_nat i) as [px|] eqn:E.
    + rewrite list_lookup_insert_eq by (eapply lookup_lt_Some; eauto). reflexivity.
    + rewrite list_insert_ge by (apply lookup_ge_None; exact E).
      rewrite E. reflexivity.
  - rewrite !list_lookup_alter_ne by congruence.
    rewrite list_lookup_insert_ne by congruence. reflexivity.
Qed.


Lemma for_range_nil {S : Type} lo hi (body : Z -> S -> S) s :
  hi <= lo -> for_range lo hi body s = s.
Proof. intros Hle. unfold for_range. rewrite seqZ_nil by lia. reflexivity. Qed.

Lemma length_malloc junk n : length (malloc junk n) = Z.to_nat (n / sizeof_PPMPixel).
Proof. unfold malloc. rewrite length_map, length_seq. reflexivity. Qed.

Lemma malloc_pixels_length junk n :
  0 <= n -> n * 3 < 2 ^ 64 ->
  length (malloc junk (to_ulong (to_ulong n * sizeof_PPMPixel))) = Z.to_nat n.
Proof.
  intros Hn Hb. rewrite length_malloc. unfold sizeof_PPMPixel.
  rewrite (to_ulong_small n) by lia. rewrite to_ulong_small by lia.
  rewrite Z.div_mul by lia. reflexivity.
Qed.

(** ** The convolution worker *)

(** The index arithmetic of the worker: an [int] offset below zero turns
    into a large [unsigned long], and adding the dimension wraps it back. *)
Lemma wrap_coordinate i d n :
  0 < n <= INT_MAX -> 0 <= i < n -> 0 <= d <= 2 ->
  to_int (to_ulong (to_ulong (to_int (i - 3 / 2 + d)) + n) mod n)
  = (i + (d - 1)) mod n.
Proof.
  unfold INT_MAX. intros Hn Hi Hd.
  change (3 / 2) with 1.
  rewrite (to_int_small (i - 1 + d)) by lia.
  assert (to_ulong (to_ulong (i - 1 + d) + n) = i - 1 + d + n) as ->.
  { unfold to_ulong. rewrite Zplus_mod_idemp_l. apply Z.mod_small. lia. }
  replace (i - 1 + d + n) with (i + (d - 1) + 1 * n) by lia.
  rewrite Z_mod_plus_full.
  apply to_int_small.
  pose proof (Z.mod_pos_bound (i + (d - 1)) n). lia.
Qed.

Lemma pixel_index row col n m :
  0 < n <= INT_MAX -> 0 < m <= INT_MAX -> 0 <= row < m -> 0 <= col < n ->
  to_ulong (to_ulong (to_ulong row * n) + to_ulong col) = row * n + col.
Proof.
  unfold INT_MAX. intros Hn Hm Hrow Hcol.
  rewrite (to_ulong_small row), (to_ulong_small col) by lia.
  assert (0 <= row * n <= 2147483647 * 2147483647) by nia.
  rewrite (to_ulong_small (row * n)) by lia.
  apply to_ulong_small. lia.
Qed.

Ltac strip_to_int :=
  repeat match goal with
         | |- context [to_int ?z] =>
             lazymatch z with
             | context [to_int _] => fail
             | _ => rewrite (to_int_small z) by lia
             end
         end.

Lemma filter_sums_conv param x y :
  0 < w param <= INT_MAX -> 0 < h param <= INT_MAX ->
  0 <= x < w param -> 0 <= y < h param ->
  filter_sums param x y
  = (conv_sum r (image param) (w param) (h param) x y,
     conv_sum g (image param) (w param) (h param) x y,
     conv_sum b (image param) (w param) (h param) x y).
Proof.
  intros Hw Hh Hx Hy.
  unfold filter_sums, for_range, FILTER_WIDTH, FILTER_HEIGHT.
  change (seqZ 0 (3 - 0)) with [0; 1; 2].
  cbn [fold_left].
  rewrite !(wrap_coordinate x _ (w param)) by lia.
  rewrite !(wrap_coordinate y _ (h param)) by lia.
  pose proof (Z.mod_pos_bound (x + (0 - 1)) (w param)).
  pose proof (Z.mod_pos_bound (x + (1 - 1)) (w param)).
  pose proof (Z.mod_pos_bound (x + (2 - 1)) (w param)).
  pose proof (Z.mod_pos_bound (y + (0 - 1)) (h param)).
  pose proof (Z.mod_pos_bound (y + (1 - 1)) (h param)).
  pose proof (Z.mod_pos_bound (y + (2 - 1)) (h param)).
  rewrite !(pixel_index _ _ (w param) (h param)) by lia.
  unfold conv_sum. cbn [flat_map map app Zsum fold_right].
  change (0 - 1) with (-1). change (1 - 1) with 0. change (2 - 1) with 1.
  unfold source_at.
  repeat match goal with
         | |- context [load ?l ?i] =>
             let px := fresh "px" in
             set (px := load l i);
             pose proof (byte_to_Z_range (r px));
             pose proof (byte_to_Z_range (g px));
             pose proof (byte_to_Z_range (b px))
         end.
  change (laplacian_at 0 0) with (-1). change (laplacian_at 0 1) with (-1).
  change (laplacian_at 0 2) with (-1). change (laplacian_at 1 0) with (-1).
  change (laplacian_at 1 1) with 8. change (laplacian_at 1 2) with (-1).
  change (laplacian_at 2 0) with (-1). change (laplacian_at 2 1) with (-1).
  change (laplacian_at 2 2) with (-1).
  change (kernel_at (-1 + 1) (-1 + 1)) with (-1).
  change (kernel_at (-1 + 1) (0 + 1)) with (-1).
  change (kernel_at (-1 + 1) (1 + 1)) with (-1).
  change (kernel_at (0 + 1) (-1 + 1)) with (-1).
  change (kernel_at (0 + 1) (0 + 1)) with 8.
  change (kernel_at (0 + 1) (1 + 1)) with (-1).
  change (kernel_at (1 + 1) (-1 + 1)) with (-1).
  change (kernel_at (1 + 1) (0 + 1)) with (-1).
  change (kernel_at (1 + 1) (1 + 1)) with (-1).
  strip_to_int.
  f_equal; [f_equal |]; lia.
Qed.

Lemma cell_inj W H xy1 xy2 :
  in_image W H xy1 -> in_image W H xy2 -> cell W xy1 = cell W xy2 -> xy1 = xy2.
Proof.
  destruct xy1 as [x1 y1], xy2 as [x2 y2]. unfold in_image, cell. simpl.
  intros [Hx1 Hy1] [Hx2 Hy2] E.
  assert (y1 * W + x1 = y2 * W + x2) as E' by nia.
  assert (y1 = y2) by nia. subst y2.
  f_equal. lia.
Qed.

Lemma cell_lt W H xy : in_image W H xy -> (cell W xy < Z.to_nat (W * H))%nat.
Proof.
  destruct xy as [x y]. unfold in_image, cell. simpl. intros [Hx Hy].
  apply Z2Nat.inj_lt; nia.
Qed.

Lemma filter_pixel_insert param x y result :
  0 < w param <= INT_MAX -> 0 < h param <= INT_MAX ->
  in_image (w param) (h param) (x, y) ->
  filter_pixel param x y result
  = <[cell (w param) (x, y) :=
        conv_pixel (image param) (w param) (h param) x y]> result.
Proof.
  intros Hw Hh [Hx Hy]. simpl in Hx, Hy.
  unfold filter_pixel. rewrite filter_sums_conv by assumption.
  rewrite (pixel_index _ _ (w param) (h param)) by lia.
  rewrite store_insert by nia.
  rewrite !truncate_clamp. reflexivity.
Qed.

Lemma fold_left_flat_map {A B C : Type} (f : A -> C -> A) (g : B -> list C) l a :
  fold_left f (flat_map g l) a = fold_left (fun a x => fold_left f (g x) a) l a.
Proof.
  revert a. induction l as [|x l IH]; intros a; simpl; [reflexivity |].
  rewrite fold_left_app. apply IH.
Qed.

Lemma fold_left_map {A B C : Type} (f : A -> C -> A) (g : B -> C) l a :
  fold_left f (map g l) a = fold_left (fun a x => f a (g x)) l a.
Proof.
  revert a. induction l as [|x l IH]; intros a; simpl; [reflexivity | apply IH].
Qed.

Lemma fold_left_pointwise {A B : Type} (f f' : A -> B -> A) l a :
  (forall a x, f a x = f' a x) -> fold_left f l a = fold_left f' l a.
Proof.
  intros E. revert a. induction l as [|x l IH]; intros a; simpl;
    [reflexivity | rewrite E; apply IH].
Qed.

Lemma threadfn_steps param result :
  compute_laplacian_threadfn param result
  = fold_left (pixel_step param) (thread_steps param) result.
Proof.
  unfold compute_laplacian_threadfn, thread_steps, for_range.
  rewrite fold_left_flat_map.
  apply fold_left_pointwise. intros res x.
  rewrite fold_left_map. reflexivity.
Qed.

Section Steps.
Variables (source : list PPMPixel) (W H : Z).
Hypothesis HW : 0 < W <= INT_MAX.
Hypothesis HH : 0 < H <= INT_MAX.

Lemma pixel_step_insert param result xy :
  same_image source W H param -> in_image W H xy ->
  pixel_step param result xy
  = <[cell W xy := conv_pixel source W H (fst xy) (snd xy)]> result.
Proof.
  intros (Hi & Hw & Hh) Hxy. unfold pixel_step. destruct xy as [x y].
  rewrite filter_pixel_insert by (rewrite ?Hw, ?Hh; assumption).
  rewrite Hi, Hw, Hh. reflexivity.
Qed.

(** After a sequence of pixel steps, a cell holds the convolution when
    its pixel is among the steps, and what it held before otherwise. *)
Lemma fold_steps_lookup param steps result xy :
  same_image source W H param ->
  Forall (in_image W H) steps -> in_image W H xy ->
  length result = Z.to_nat (W * H) ->
  fold_left (pixel_step param) steps result !! cell W xy
  = if decide (xy ∈ steps)
    then Some (conv_pixel source W H (fst xy) (snd xy))
    else result !! cell W xy.
Proof.
  intros Hp Hsteps Hxy. revert result.
  induction Hsteps as [|s steps Hs Hsteps IH]; intros result Hlen; simpl.
  - destruct (decide (xy ∈ [])) as [Hin|]; [inversion Hin | reflexivity].
  - rewrite IH by (rewrite pixel_step_insert, length_insert by assumption;
                   exact Hlen).
    rewrite pixel_step_insert by assumption.
    destruct (decide (xy ∈ steps)) as [Hin | Hnin].
    + rewrite decide_True by (right; exact Hin). reflexivity.
    + destruct (decide (xy = s)) as [-> | Hne].
      * rewrite decide_True by left.
        apply list_lookup_insert_eq. rewrite Hlen.
        eapply cell_lt. exact Hs.
      * rewrite decide_False.
        -- apply list_lookup_insert_ne. intros E.
           apply Hne. symmetry. eapply cell_inj; eauto.
        -- intros Hin. apply elem_of_cons in Hin. tauto.
Qed.

Lemma fold_steps_length param steps result :
  same_image source W H param -> Forall (in_image W H) steps ->
  length (fold_left (pixel_step param) steps result) = length result.
Proof.
  intros Hp Hsteps. revert result.
  induction Hsteps as [|s steps Hs Hsteps IH]; intros result; simpl.
  - reflexivity.
  - rewrite IH, pixel_step_insert, length_insert by assumption. reflexivity.
Qed.
End Steps.

Lemma elem_of_thread_steps param x y :
  (x, y) ∈ thread_steps param
  <-> 0 <= x < w param
      /\ to_int (start param) <= y < to_ulong (start param + size param).
Proof.
  unfold thread_steps. rewrite list_elem_of_In, in_flat_map. split.
  - intros (x' & Hx' & Hin). apply in_map_iff in Hin as (y' & E & Hy').
    inversion E; subst. apply list_elem_of_In, elem_of_seqZ in Hx'.
    apply list_elem_of_In, elem_of_seqZ in Hy'. lia.
  - intros [Hx Hy]. exists x. split.
    + apply list_elem_of_In, elem_of_seqZ. lia.
    + apply in_map_iff. exists y. split; [reflexivity |].
      apply list_elem_of_In, elem_of_seqZ. lia.
Qed.

Lemma thread_steps_in_image param :
  h param <= INT_MAX -> rows_in_image param ->
  Forall (in_image (w param) (h param)) (thread_steps param).
Proof.
  unfold INT_MAX. intros Hh (Hs & Hn & Hle).
  apply Forall_forall. intros [x y] Hin.
  apply elem_of_thread_steps in Hin as [Hx Hy].
  rewrite to_int_small, to_ulong_small in Hy by lia.
  split; simpl; lia.
Qed.

(** C1: for a source image of positive width W and height H, a column x
    in [0,W) and a row y of the worker's range, the convolution worker
    stores in cell result[y][x] the pixel whose channels are the sums over
    dx, dy in {-1,0,1} of kernel[dy+1][dx+1] * source[(y+dy) mod H][(x+dx) mod W],
    clamped to [0,255]: the neighbours wrap around the borders. The
    dimensions are those the [int] counters of the worker can count. *)
Theorem worker_stores_clamped_convolution
    (param : parameter) (result : list PPMPixel) (x y : Z) :
  0 < w param <= INT_MAX -> 0 < h param <= INT_MAX ->
  length (image param) = Z.to_nat (w param * h param) ->
  length result = Z.to_nat (w param * h param) ->
  rows_in_image param ->
  0 <= x < w param ->
  start param <= y < start param + size param ->
  exists px,
    compute_laplacian_threadfn param result !! Z.to_nat (y * w param + x) = Some px
    /\ byte_to_Z (r px) = clamp (conv_sum r (image param) (w param) (h param) x y)
    /\ byte_to_Z (g px) = clamp (conv_sum g (image param) (w param) (h param) x y)
    /\ byte_to_Z (b px) = clamp (conv_sum b (image param) (w param) (h param) x y).
Proof.
  intros Hw Hh _ Hlen Hrows Hx Hy.
  exists (conv_pixel (image param) (w param) (h param) x y).
  split.
  - rewrite threadfn_steps.
    pose proof Hrows as (Hs & Hn & Hle).
    assert (in_image (w param) (h param) (x, y)) as Hxy
      by (split; simpl; lia).
    change (Z.to_nat (y * w param + x)) with (cell (w param) (x, y)).
    rewrite (fold_steps_lookup (image param) (w param) (h param) Hw Hh)
      by (try apply thread_steps_in_image; unfold same_image; auto; lia).
    rewrite decide_True; [reflexivity |].
    apply elem_of_thread_steps. unfold INT_MAX in *.
    rewrite to_int_small, to_ulong_small by lia. lia.
  - unfold conv_pixel. simpl.
    rewrite !byte_to_Z_to_byte by apply clamp_range. auto.
Qed.

(** ** The partition of the rows *)

Lemma make_param_rows nthreads source W H i :
  1 <= nthreads <= INT_MAX -> 0 <= H <= INT_MAX -> 0 <= i < nthreads ->
  start (make_param nthreads source W H i) = i * (H / nthreads)
  /\ size (make_param nthreads source W H i)
     = if i =? nthreads - 1 then H - i * (H / nthreads) else H / nthreads.
Proof.
  unfold INT_MAX. intros HN HH Hi. unfold make_param. simpl.
  rewrite (to_ulong_small nthreads) by lia.
  assert (0 <= H / nthreads <= H) as Hwork.
  { split; [apply Z.div_pos; lia |].
    apply Z.div_le_upper_bound; nia. }
  pose proof (Z.mul_div_le H nthreads ltac:(lia)) as Hmul.
  assert (0 <= i * (H / nthreads) <= H) as Hstart by nia.
  rewrite (to_int_small (H / nthreads)) by lia.
  rewrite (to_int_small (i * (H / nthreads))) by lia.
  rewrite (to_ulong_small (i * (H / nthreads))) by lia.
  split; [reflexivity |].
  destruct (i =? nthreads - 1); apply to_ulong_small; lia.
Qed.

Lemma lookup_partitions nthreads H i :
  1 <= nthreads <= INT_MAX -> 0 <= H <= INT_MAX -> 0 <= i < nthreads ->
  partitions nthreads H !! Z.to_nat i
  = Some (i * (H / nthreads),
          if i =? nthreads - 1 then H - i * (H / nthreads) else H / nthreads).
Proof.
  intros HN HH Hi. unfold partitions, params.
  rewrite !list_lookup_fmap, lookup_seqZ_lt by lia.
  replace (0 + Z.of_nat (Z.to_nat i)) with i by lia.
  cbn [fmap option_fmap option_map].
  destruct (make_param_rows nthreads [] 0 H i HN HH Hi) as [-> ->].
  reflexivity.
Qed.

Lemma length_partitions nthreads H :
  length (partitions nthreads H) = Z.to_nat nthreads.
Proof. unfold partitions, params. rewrite !length_map. apply length_seqZ. Qed.

Lemma lookup_partitions_inv nthreads H (i : nat) s n :
  1 <= nthreads <= INT_MAX -> 0 <= H <= INT_MAX ->
  partitions nthreads H !! i = Some (s, n) ->
  0 <= Z.of_nat i < nthreads
  /\ s = Z.of_nat i * (H / nthreads)
  /\ n = if Z.of_nat i =? nthreads - 1
         then H - Z.of_nat i * (H / nthreads) else H / nthreads.
Proof.
  intros HN HH Hl.
  assert (0 <= Z.of_nat i < nthreads) as Hi.
  { apply lookup_lt_Some in Hl. rewrite length_partitions in Hl. lia. }
  split; [exact Hi |].
  rewrite <- (Nat2Z.id i), lookup_partitions in Hl by assumption.
  inversion Hl. auto.
Qed.

Lemma contiguous_le a ps c : contiguous a ps c -> a <= c.
Proof. induction 1; lia. Qed.

Lemma contiguous_within a ps c (i : nat) s n :
  contiguous a ps c -> ps !! i = Some (s, n) ->
  a <= s /\ 0 <= n /\ s + n <= c.
Proof.
  intros Hc. revert i.
  induction Hc as [a | a m ps c Hm Hc IH]; intros i Hl.
  - inversion Hl.
  - destruct i as [|i]; simpl in Hl.
    + inversion Hl; subst. apply contiguous_le in Hc. lia.
    + apply IH in Hl. lia.
Qed.

Lemma contiguous_cover a ps c y :
  contiguous a ps c -> a <= y < c ->
  exists (i : nat) s n, ps !! i = Some (s, n) /\ s <= y < s + n.
Proof.
  induction 1 as [a | a m ps c Hm Hc IH]; intros Hy.
  - lia.
  - destruct (Z.lt_ge_cases y (a + m)) as [Hlt | Hge].
    + exists 0%nat, a, m. split; [reflexivity | lia].
    + destruct IH as (i & s & n & Hl & Hs); [lia |].
      exists (S i), s, n. auto.
Qed.

Lemma contiguous_disjoint a ps c (i j : nat) s n s' n' y :
  contiguous a ps c ->
  ps !! i = Some (s, n) -> ps !! j = Some (s', n') ->
  s <= y < s + n -> s' <= y < s' + n' -> i = j.
Proof.
  intros Hc. revert i j.
  induction Hc as [a | a m ps c Hm Hc IH]; intros i j Hi Hj Hy Hy'.
  - inversion Hi.
  - destruct i as [|i], j as [|j]; simpl in Hi, Hj.
    + reflexivity.
    + inversion Hi; subst.
      pose proof (contiguous_within _ _ _ _ _ _ Hc Hj). lia.
    + inversion Hj; subst.
      pose proof (contiguous_within _ _ _ _ _ _ Hc Hi). lia.
    + f_equal. eapply IH; eauto.
Qed.

Lemma partitions_chunks nthreads H :
  1 <= nthreads <= INT_MAX -> 0 <= H <= INT_MAX ->
  partitions nthreads H = map (chunk_of nthreads H) (seqZ 0 nthreads).
Proof.
  intros HN HH. unfold partitions, params. rewrite map_map.
  apply map_ext_in. intros i Hin.
  apply list_elem_of_In, elem_of_seqZ in Hin.
  destruct (make_param_rows nthreads [] 0 H i) as [-> ->]; try lia.
  reflexivity.
Qed.

Lemma chunks_contiguous nthreads H (k : nat) a :
  1 <= nthreads -> 0 <= H -> 0 <= a ->
  a + Z.of_nat (S k) = nthreads ->
  contiguous (a * (H / nthreads))
             (map (chunk_of nthreads H) (seqZ a (Z.of_nat (S k)))) H.
Proof.
  intros HN HH. revert a.
  pose proof (Z.mul_div_le H nthreads ltac:(lia)) as Hmul.
  assert (0 <= H / nthreads) as Hwork by (apply Z.div_pos; lia).
  induction k as [|k IH]; intros a Ha Hsum.
  - change (seqZ a (Z.of_nat 1)) with [0 + a]. simpl.
    replace (0 + a) with a by lia. unfold chunk_of.
    rewrite (proj2 (Z.eqb_eq a (nthreads - 1))) by lia.
    constructor; [nia |].
    replace (a * (H / nthreads) + (H - a * (H / nthreads))) with H by lia.
    constructor.
  - rewrite seqZ_cons by lia. simpl.
    replace (Z.pred (Z.of_nat (S (S k)))) with (Z.of_nat (S k)) by lia.
    unfold chunk_of at 1.
    rewrite (proj2 (Z.eqb_neq a (nthreads - 1))) by lia.
    constructor; [lia |].
    replace (a * (H / nthreads) + H / nthreads)
      with (Z.succ a * (H / nthreads)) by lia.
    apply IH; lia.
Qed.

Lemma partitions_contiguous nthreads H :
  1 <= nthreads <= INT_MAX -> 0 <= H <= INT_MAX ->
  contiguous 0 (partitions nthreads H) H.
Proof.
  intros HN HH. rewrite partitions_chunks by assumption.
  replace nthreads with (Z.of_nat (S (Z.to_nat (nthreads - 1)))) at 2 by lia.
  change 0 with (0 * (H / nthreads)) at 1.
  apply chunks_contiguous; lia.
Qed.

(** C2: for every height H >= 0 and every number N >= 1 of workers (in
    the range of [int]), the N partitions of the filter engine, with chunk
    H div N, start i * chunk, size chunk for the workers before the last
    and H - start for the last, are contiguous and do not overlap, have
    sizes >= 0, and cover exactly the rows [0,H); when H < N all workers
    but the last receive empty partitions. *)
Theorem partitions_cover_rows (nthreads H : Z) :
  1 <= nthreads <= INT_MAX -> 0 <= H <= INT_MAX ->
  let ps := partitions nthreads H in
  length ps = Z.to_nat nthreads
  /\ (forall i, 0 <= i < nthreads ->
        ps !! Z.to_nat i
        = Some (i * (H / nthreads),
                if i =? nthreads - 1 then H - i * (H / nthreads)
                else H / nthreads))
  /\ contiguous 0 ps H
  /\ (forall (i : nat) s n, ps !! i = Some (s, n) ->
        0 <= n /\ 0 <= s /\ s + n <= H)
  /\ (forall y, 0 <= y < H ->
        exists (i : nat) s n, ps !! i = Some (s, n) /\ s <= y < s + n)
  /\ (forall (i j : nat) s n s' n' y,
        ps !! i = Some (s, n) -> ps !! j = Some (s', n') ->
        s <= y < s + n -> s' <= y < s' + n' -> i = j)
  /\ (H < nthreads ->
        forall (i : nat) s n, ps !! i = Some (s, n) ->
          Z.of_nat i < nthreads - 1 -> n = 0).
Proof.
  intros HN HH ps.
  pose proof (partitions_contiguous nthreads H HN HH) as Hc.
  split; [apply length_partitions |].
  split; [intros i Hi; apply lookup_partitions; assumption |].
  split; [exact Hc |].
  split.
  { intros i s n Hl.
    pose proof (contiguous_within _ _ _ _ _ _ Hc Hl). lia. }
  split; [intros y Hy; eapply contiguous_cover; eauto |].
  split.
  { intros i j s n s' n' y Hi Hj Hy Hy'.
    eapply (contiguous_disjoint 0 ps H i j); eauto. }
  intros Hlt i s n Hl Hi.
  apply lookup_partitions_inv in Hl as (_ & _ & ->); try assumption.
  rewrite (proj2 (Z.eqb_neq _ _)) by lia.
  apply Z.div_small. lia.
Qed.

(** ** The filter pass *)

Section Pass.
Variables (source : list PPMPixel) (W H : Z).
Hypothesis HW : 0 < W <= INT_MAX.
Hypothesis HH : 0 < H <= INT_MAX.

Lemma list_eq_cells (l1 l2 : list PPMPixel) :
  length l1 = Z.to_nat (W * H) -> length l2 = Z.to_nat (W * H) ->
  (forall xy, in_image W H xy -> l1 !! cell W xy = l2 !! cell W xy) ->
  l1 = l2.
Proof.
  intros H1 H2 Hcells. apply list_eq. intros i.
  destruct (Nat.lt_ge_cases i (Z.to_nat (W * H))) as [Hlt | Hge].
  - specialize (Hcells (Z.of_nat i mod W, Z.of_nat i / W)).
    unfold cell in Hcells. simpl in Hcells.
    replace (Z.of_nat i / W * W + Z.of_nat i mod W) with (Z.of_nat i) in Hcells
      by (pose proof (Z.div_mod (Z.of_nat i) W); lia).
    rewrite Nat2Z.id in Hcells. apply Hcells.
    split; simpl.
    + apply Z.mod_pos_bound. lia.
    + split; [apply Z.div_pos; lia |].
      apply Z.div_lt_upper_bound; lia.
  - rewrite !(proj2 (lookup_ge_None _ _)) by lia. reflexivity.
Qed.

Lemma lookup_rows (f : Z -> Z -> PPMPixel) (k : nat) a x y :
  0 <= x < W -> a <= y < a + Z.of_nat k ->
  flat_map (fun y => map (fun x => f x y) (seqZ 0 W)) (seqZ a (Z.of_nat k))
    !! Z.to_nat ((y - a) * W + x)
  = Some (f x y).
Proof.
  intros Hx. revert a.
  induction k as [|k IH]; intros a Hy; [lia |].
  rewrite (seqZ_cons a) by lia. cbn [flat_map].
  replace (Z.pred (Z.of_nat (S k))) with (Z.of_nat k) by lia.
  destruct (decide (y = a)) as [-> | Hne].
  - rewrite lookup_app_l by (rewrite length_map, length_seqZ; lia).
    replace ((a - a) * W + x) with x by lia.
    change (map (fun x0 => f x0 a) (seqZ 0 W))
      with ((fun x0 => f x0 a) <$> seqZ 0 W).
    rewrite list_lookup_fmap, lookup_seqZ_lt by lia.
    simpl. do 2 f_equal. lia.
  - assert (W <= (y - a) * W + x) as Hge by nia.
    rewrite lookup_app_r
      by (rewrite length_map, length_seqZ; apply Z2Nat.inj_le; lia).
    rewrite length_map, length_seqZ.
    rewrite <- Z2Nat.inj_sub by lia.
    replace ((y - a) * W + x - W) with ((y - Z.succ a) * W + x) by lia.
    apply IH. lia.
Qed.

Lemma length_rows (f : Z -> Z -> PPMPixel) (k : nat) a :
  length (flat_map (fun y => map (fun x => f x y) (seqZ 0 W))
                   (seqZ a (Z.of_nat k)))
  = Z.to_nat (W * Z.of_nat k).
Proof.
  revert a. induction k as [|k IH]; intros a.
  - rewrite (seqZ_nil a) by lia. simpl. rewrite Z.mul_0_r. reflexivity.
  - rewrite (seqZ_cons a) by lia. cbn [flat_map].
    replace (Z.pred (Z.of_nat (S k))) with (Z.of_nat k) by lia.
    rewrite length_app, IH, length_map, length_seqZ.
    rewrite <- Z2Nat.inj_add by nia. f_equal. lia.
Qed.

Lemma lookup_convolve_image xy :
  in_image W H xy ->
  convolve_image source W H !! cell W xy
  = Some (conv_pixel source W H (fst xy) (snd xy)).
Proof.
  destruct xy as [x y]. intros [Hx Hy]. simpl in *.
  unfold convolve_image, cell. simpl.
  pose proof (lookup_rows (conv_pixel source W H) (Z.to_nat H) 0 x y Hx) as L.
  rewrite Z2Nat.id in L by lia.
  replace ((y - 0) * W + x) with (y * W + x) in L by lia.
  apply L. lia.
Qed.

Lemma length_convolve_image :
  length (convolve_image source W H) = Z.to_nat (W * H).
Proof.
  unfold convolve_image.
  pose proof (length_rows (conv_pixel source W H) (Z.to_nat H) 0) as L.
  rewrite Z2Nat.id in L by lia. exact L.
Qed.

(** A buffer whose cells are all convolved is the convolved image. *)
Lemma convolved_all result :
  length result = Z.to_nat (W * H) ->
  (forall xy, in_image W H xy -> convolved source W H result xy) ->
  result = convolve_image source W H.
Proof.
  intros Hlen Hall. apply list_eq_cells.
  - exact Hlen.
  - apply length_convolve_image.
  - intros xy Hxy. rewrite lookup_convolve_image by assumption.
    apply Hall. exact Hxy.
Qed.

(** *** One worker *)

Lemma threadfn_length param result :
  same_image source W H param -> rows_in_image param ->
  length (compute_laplacian_threadfn param result) = length result.
Proof.
  intros Hp Hr. rewrite threadfn_steps.
  apply (fold_steps_length source W H HW HH); [exact Hp |].
  destruct Hp as (_ & <- & <-). apply thread_steps_in_image; [| exact Hr].
  destruct Hr as (_ & _ & _). lia.
Qed.

Lemma threadfn_lookup param result xy :
  same_image source W H param -> rows_in_image param ->
  in_image W H xy -> length result = Z.to_nat (W * H) ->
  compute_laplacian_threadfn param result !! cell W xy
  = if decide (xy ∈ thread_steps param)
    then Some (conv_pixel source W H (fst xy) (snd xy))
    else result !! cell W xy.
Proof.
  intros Hp Hr Hxy Hlen. rewrite threadfn_steps.
  apply (fold_steps_lookup source W H HW HH); try assumption.
  destruct Hp as (_ & <- & <-). apply thread_steps_in_image; [lia | exact Hr].
Qed.

Lemma threadfn_keeps_convolved param result xy :
  same_image source W H param -> rows_in_image param ->
  in_image W H xy -> length result = Z.to_nat (W * H) ->
  convolved source W H result xy ->
  convolved source W H (compute_laplacian_threadfn param result) xy.
Proof.
  intros Hp Hr Hxy Hlen Hc. unfold convolved.
  rewrite threadfn_lookup by assumption.
  destruct (decide (xy ∈ thread_steps param)); [reflexivity | exact Hc].
Qed.

Lemma threadfn_convolves param result xy :
  same_image source W H param -> rows_in_image param ->
  in_image W H xy -> length result = Z.to_nat (W * H) ->
  xy ∈ thread_steps param ->
  convolved source W H (compute_laplacian_threadfn param result) xy.
Proof.
  intros Hp Hr Hxy Hlen Hin. unfold convolved.
  rewrite threadfn_lookup by assumption.
  rewrite decide_True by assumption. reflexivity.
Qed.

(** *** The workers one after the other *)

Lemma run_workers_length ps result :
  Forall (fun p => same_image source W H p /\ rows_in_image p) ps ->
  length (run_workers ps result) = length result.
Proof.
  intros Hps. revert result. unfold run_workers.
  induction Hps as [|p ps [Hp Hr] Hps IH]; intros result; simpl.
  - reflexivity.
  - rewrite IH. apply threadfn_length; assumption.
Qed.

Lemma run_workers_keeps_convolved ps result xy :
  Forall (fun p => same_image source W H p /\ rows_in_image p) ps ->
  in_image W H xy -> length result = Z.to_nat (W * H) ->
  convolved source W H result xy ->
  convolved source W H (run_workers ps result) xy.
Proof.
  intros Hps Hxy. revert result. unfold run_workers.
  induction Hps as [|p ps [Hp Hr] Hps IH]; intros result Hlen Hc; simpl.
  - exact Hc.
  - apply IH.
    + rewrite threadfn_length; assumption.
    + apply threadfn_keeps_convolved; assumption.
Qed.

Lemma run_workers_convolves ps result xy (i : nat) p :
  Forall (fun p => same_image source W H p /\ rows_in_image p) ps ->
  in_image W H xy -> length result = Z.to_nat (W * H) ->
  ps !! i = Some p -> xy ∈ thread_steps p ->
  convolved source W H (run_workers ps result) xy.
Proof.
  intros Hps Hxy. revert result i.
  induction Hps as [|q ps [Hq Hr] Hps IH]; intros result i Hlen Hl Hin.
  - inversion Hl.
  - change (run_workers (q :: ps) result)
      with (run_workers ps (compute_laplacian_threadfn q result)).
    destruct i as [|i]; simpl in Hl.
    + inversion Hl; subst q.
      apply run_workers_keeps_convolved; try assumption.
      * rewrite threadfn_length; assumption.
      * apply threadfn_convolves; assumption.
    + apply (IH _ i); try assumption.
      rewrite threadfn_length; assumption.
Qed.
End Pass.

Lemma fresh_buffer_length junk W H :
  0 < W <= INT_MAX -> 0 < H <= INT_MAX ->
  length (malloc junk (to_ulong (to_ulong (W * H) * sizeof_PPMPixel)))
  = Z.to_nat (W * H).
Proof. unfold INT_MAX. intros HW HH. apply malloc_pixels_length; nia. Qed.

Section Parallel.
Variables (source : list PPMPixel) (W H : Z) (nthreads : Z).
Hypothesis HW : 0 < W <= INT_MAX.
Hypothesis HH : 0 < H <= INT_MAX.
Hypothesis HN : 1 <= nthreads <= INT_MAX.

Lemma lookup_params (i : nat) p :
  params nthreads source W H !! i = Some p ->
  0 <= Z.of_nat i < nthreads /\ p = make_param nthreads source W H (Z.of_nat i).
Proof.
  unfold params. rewrite list_lookup_fmap. intros Hl.
  destruct (seqZ 0 nthreads !! i) as [j|] eqn:E; [| discriminate].
  apply lookup_seqZ in E as [-> Hi]. simpl in Hl. inversion Hl.
  split; [lia | reflexivity].
Qed.

Lemma params_ok :
  Forall (fun p => same_image source W H p /\ rows_in_image p)
         (params nthreads source W H).
Proof.
  apply Forall_lookup. intros i p Hl.
  apply lookup_params in Hl as [Hi ->].
  split; [unfold same_image, make_param; simpl; auto |].
  unfold rows_in_image.
  destruct (make_param_rows nthreads source W H (Z.of_nat i)) as [-> ->];
    try lia.
  change (h (make_param nthreads source W H (Z.of_nat i))) with H.
  pose proof (Z.mul_div_le H nthreads ltac:(lia)) as Hmul.
  assert (0 <= H / nthreads) as Hwork by (apply Z.div_pos; lia).
  destruct (Z.eqb_spec (Z.of_nat i) (nthreads - 1)); nia.
Qed.

Lemma params_cover xy :
  in_image W H xy ->
  exists (i : nat) p,
    params nthreads source W H !! i = Some p /\ xy ∈ thread_steps p.
Proof.
  destruct xy as [x y]. intros [Hx Hy]. simpl in Hx, Hy.
  assert (0 <= H <= INT_MAX) as HH' by lia.
  destruct (contiguous_cover 0 _ H y (partitions_contiguous nthreads H HN HH') Hy)
    as (i & s & n & Hl & Hs).
  pose proof (contiguous_within _ _ _ _ _ _
                (partitions_contiguous nthreads H HN HH') Hl) as Hin.
  apply lookup_partitions_inv in Hl as (Hi & Es & En); try assumption.
  exists i, (make_param nthreads source W H (Z.of_nat i)). split.
  - unfold params. rewrite list_lookup_fmap, lookup_seqZ_lt by lia.
    reflexivity.
  - apply elem_of_thread_steps.
    destruct (make_param_rows nthreads source W H (Z.of_nat i) HN HH' Hi)
      as [-> ->].
    rewrite <- En, <- Es.
    change (w (make_param nthreads source W H (Z.of_nat i))) with W.
    unfold INT_MAX in *.
    rewrite to_int_small, to_ulong_small by lia. lia.
Qed.

(** The workers run one after the other convolve the whole image. *)
Lemma run_workers_convolve_image result :
  length result = Z.to_nat (W * H) ->
  run_workers (params nthreads source W H) result = convolve_image source W H.
Proof.
  intros Hlen. apply (convolved_all source W H HW HH).
  - rewrite (run_workers_length source W H HW HH) by apply params_ok.
    exact Hlen.
  - intros xy Hxy.
    destruct (params_cover xy Hxy) as (i & p & Hl & Hin).
    eapply (run_workers_convolves source W H HW HH); eauto using params_ok.
Qed.

(** *** Interleaved executions *)

Lemma pass_invariant_init result :
  length result = Z.to_nat (W * H) ->
  pass_invariant source W H (spawn (params nthreads source W H), result).
Proof.
  intros Hlen. split; [exact Hlen |]. split; simpl.
  - unfold spawn. apply Forall_fmap.
    eapply Forall_impl; [apply params_ok |].
    intros p [Hp Hr]. split; simpl; [exact Hp |].
    destruct Hp as (_ & <- & <-). apply thread_steps_in_image; [lia | exact Hr].
  - intros xy Hxy. right.
    destruct (params_cover xy Hxy) as (i & p & Hl & Hin).
    exists i, (mkThread p (thread_steps p)). split; [| exact Hin].
    unfold spawn.
    change (map ?f ?l) with (f <$> l).
    rewrite list_lookup_fmap, Hl. reflexivity.
Qed.

Lemma sched_step_invariant t st :
  pass_invariant source W H st -> pass_invariant source W H (sched_step t st).
Proof.
  destruct st as [ths result]. intros (Hlen & Hths & Hcov).
  unfold sched_step. simpl in *.
  destruct (ths !! t) as [[param [|[x y] todo]]|] eqn:Et;
    try (split; [| split]; assumption).
  pose proof (Forall_lookup_1 _ _ _ _ Hths Et) as [Hp Htodo].
  simpl in Hp, Htodo. inversion Htodo as [|? ? Hxy Htodo']; subst.
  change (filter_pixel param x y result) with (pixel_step param result (x, y)).
  rewrite (pixel_step_insert source W H HW HH) by assumption.
  split; [| split]; simpl.
  - rewrite length_insert. exact Hlen.
  - apply Forall_insert; [exact Hths |]. split; assumption.
  - intros xy' Hxy'.
    destruct (decide (xy' = (x, y))) as [-> | Hne].
    { left. unfold convolved.
      apply list_lookup_insert_eq. rewrite Hlen. eapply cell_lt; eauto. }
    destruct (Hcov xy' Hxy') as [Hc | (t' & th & Hl & Hin)].
    + left. unfold convolved.
      rewrite list_lookup_insert_ne; [exact Hc |].
      intros E. apply Hne. symmetry. eapply cell_inj; eauto.
    + right. destruct (decide (t' = t)) as [-> | Hnt].
      * rewrite Et in Hl. inversion Hl; subst th. simpl in Hin.
        apply elem_of_cons in Hin as [-> | Hin]; [congruence |].
        exists t, (mkThread param todo). split; [| exact Hin].
        apply list_lookup_insert_eq. eapply lookup_lt_Some; eauto.
      * exists t', th. split; [| exact Hin].
        rewrite list_lookup_insert_ne by congruence. exact Hl.
Qed.

Lemma run_sched_invariant sched st :
  pass_invariant source W H st -> pass_invariant source W H (run_sched sched st).
Proof.
  revert st. unfold run_sched.
  induction sched as [|t sched IH]; intros st Hinv; simpl.
  - exact Hinv.
  - apply IH, sched_step_invariant, Hinv.
Qed.

Lemma all_done_no_steps ths (t : nat) th :
  all_done ths = true -> ths !! t = Some th -> th_todo th = [].
Proof.
  unfold all_done. rewrite forallb_forall. intros Hall Hl.
  specialize (Hall th). destruct (th_todo th); [reflexivity |].
  discriminate Hall. apply list_elem_of_In. eapply list_elem_of_lookup_2; eauto.
Qed.

(** Whatever the schedule, when all workers have finished the buffer is
    the convolved image. *)
Lemma sched_convolve_image junk sched result :
  apply_filters_sched nthreads junk source W H sched = Some result ->
  result = convolve_image source W H.
Proof.
  unfold apply_filters_sched.
  set (st := run_sched sched _).
  destruct (all_done (fst st)) eqn:Hdone; [| discriminate].
  intros E. inversion E; subst result.
  assert (pass_invariant source W H st) as (Hlen & _ & Hcov).
  { apply run_sched_invariant, pass_invariant_init, fresh_buffer_length;
      assumption. }
  apply (convolved_all source W H HW HH); [exact Hlen |].
  intros xy Hxy. destruct (Hcov xy Hxy) as [Hc | (t & th & Hl & Hin)].
  - exact Hc.
  - rewrite (all_done_no_steps _ _ _ Hdone Hl) in Hin. inversion Hin.
Qed.
End Parallel.

(** Every state of the threads has a schedule that runs them to the end. *)
Lemma steps_left_insert ths (t : nat) param xy todo :
  ths !! t = Some (mkThread param (xy :: todo)) ->
  S (steps_left (<[t := mkThread param todo]> ths)) = steps_left ths.
Proof.
  revert t. induction ths as [|th ths IH]; intros t Hl; [inversion Hl |].
  destruct t as [|t]; simpl in *.
  - inversion Hl; subst. simpl. reflexivity.
  - rewrite <- (IH t Hl). lia.
Qed.

Lemma not_done_has_step ths :
  all_done ths = false ->
  exists (t : nat) param xy todo, ths !! t = Some (mkThread param (xy :: todo)).
Proof.
  induction ths as [|[param todo] ths IH]; simpl; [discriminate |].
  destruct todo as [|xy todo]; simpl.
  - intros Hnd. destruct (IH Hnd) as (t & p & s & td & Hl).
    exists (S t), p, s, td. exact Hl.
  - intros _. exists 0%nat, param, xy, todo. reflexivity.
Qed.

Lemma complete_schedule_exists ths result :
  exists sched, all_done (fst (run_sched sched (ths, result))) = true.
Proof.
  remember (steps_left ths) as n eqn:En. revert ths result En.
  induction n as [|n IH]; intros ths result En.
  - exists []. simpl.
    destruct (all_done ths) eqn:Hd; [reflexivity |].
    destruct (not_done_has_step ths Hd) as (t & p & xy & td & Hl).
    rewrite <- (steps_left_insert _ _ _ _ _ Hl) in En. discriminate.
  - destruct (all_done ths) eqn:Hd; [exists []; exact Hd |].
    destruct (not_done_has_step ths Hd) as (t & p & [x y] & td & Hl).
    destruct (IH (<[t := mkThread p td]> ths) (filter_pixel p x y result))
      as [sched Hs].
    { rewrite <- (steps_left_insert _ _ _ _ _ Hl) in En. lia. }
    exists (t :: sched). unfold run_sched. simpl.
    unfold sched_step at 2. simpl. rewrite Hl. exact Hs.
Qed.

(** C3: for every source image, the output of the parallel filter pass,
    with the rows partitioned over N workers, is the output of one
    sequential convolution of the whole image: it is the same for the
    workers run in the order of their creation, for every interleaving of
    their pixel steps that runs them to the end (there is always one), for
    every number of workers, and for one worker that does all rows. *)
Theorem parallel_pass_equals_sequential_convolution
    (nthreads : Z) (junk : nat -> PPMPixel) (source : list PPMPixel) (W H : Z) :
  1 <= nthreads <= INT_MAX -> 0 < W <= INT_MAX -> 0 < H <= INT_MAX ->
  length source = Z.to_nat (W * H) ->
  (forall t0 t1 elapsedTime,
      fst (apply_filters nthreads junk source W H t0 t1 elapsedTime)
      = convolve_image source W H)
  /\ (forall sched result,
        apply_filters_sched nthreads junk source W H sched = Some result ->
        result = convolve_image source W H)
  /\ (exists sched,
        apply_filters_sched nthreads junk source W H sched
        = Some (convolve_image source W H))
  /\ compute_laplacian_threadfn
       (mkParameter source W H 0 H)
       (malloc junk (to_ulong (to_ulong (W * H) * sizeof_PPMPixel)))
     = convolve_image source W H.
Proof.
  intros HN HW HH _.
  pose proof (fresh_buffer_length junk W H HW HH) as Hlen.
  split; [| split; [| split]].
  - intros t0 t1 elapsedTime. unfold apply_filters. simpl.
    apply run_workers_convolve_image; assumption.
  - intros sched result. apply sched_convolve_image; assumption.
  - destruct (complete_schedule_exists
                (spawn (params nthreads source W H))
                (malloc junk (to_ulong (to_ulong (W * H) * sizeof_PPMPixel))))
      as [sched Hdone].
    exists sched.
    destruct (apply_filters_sched nthreads junk source W H sched) as [result|] eqn:E.
    + f_equal. eapply sched_convolve_image; eauto.
    + unfold apply_filters_sched in E. rewrite Hdone in E. discriminate.
  - set (param := mkParameter source W H 0 H).
    assert (same_image source W H param) as Hp by (repeat split).
    assert (rows_in_image param) as Hr by (unfold rows_in_image; simpl; lia).
    apply (convolved_all source W H HW HH).
    + rewrite (threadfn_length source W H HW HH) by assumption. exact Hlen.
    + intros [x y] [Hx Hy]. simpl in Hx, Hy.
      apply (threadfn_convolves source W H HW HH); try assumption.
      * split; assumption.
      * apply elem_of_thread_steps. simpl. unfold INT_MAX in *.
        rewrite to_int_small, to_ulong_small by lia. lia.
Qed.

(** ** Uniform images *)

Lemma load_replicate (n : nat) px i :
  0 <= i -> (Z.to_nat i < n)%nat -> load (replicate n px) i = px.
Proof.
  intros Hi Hlt. unfold load. destruct (Z.ltb_spec i 0); [lia |].
  apply nth_lookup_Some with (i := Z.to_nat i).
  apply lookup_replicate_2. exact Hlt.
Qed.

Lemma conv_sum_uniform (c : PPMPixel -> byte) px W H x y :
  0 < W -> 0 < H ->
  conv_sum c (replicate (Z.to_nat (W * H)) px) W H x y = 0.
Proof.
  intros HW HH. unfold conv_sum, source_at.
  cbn [flat_map map app Zsum fold_right].
  pose proof (Z.mod_pos_bound (x + -1) W HW).
  pose proof (Z.mod_pos_bound (x + 0) W HW).
  pose proof (Z.mod_pos_bound (x + 1) W HW).
  pose proof (Z.mod_pos_bound (y + -1) H HH).
  pose proof (Z.mod_pos_bound (y + 0) H HH).
  pose proof (Z.mod_pos_bound (y + 1) H HH).
  rewrite !load_replicate by (try apply Z2Nat.inj_lt; nia).
  change (kernel_at (-1 + 1) (-1 + 1)) with (-1).
  change (kernel_at (-1 + 1) (0 + 1)) with (-1).
  change (kernel_at (-1 + 1) (1 + 1)) with (-1).
  change (kernel_at (0 + 1) (-1 + 1)) with (-1).
  change (kernel_at (0 + 1) (0 + 1)) with 8.
  change (kernel_at (0 + 1) (1 + 1)) with (-1).
  change (kernel_at (1 + 1) (-1 + 1)) with (-1).
  change (kernel_at (1 + 1) (0 + 1)) with (-1).
  change (kernel_at (1 + 1) (1 + 1)) with (-1).
  lia.
Qed.

Lemma conv_pixel_uniform px W H x y :
  0 < W -> 0 < H ->
  conv_pixel (replicate (Z.to_nat (W * H)) px) W H x y = mkPixel x00 x00 x00.
Proof.
  intros HW HH. unfold conv_pixel.
  rewrite !conv_sum_uniform by assumption. reflexivity.
Qed.

(** C4: for an image whose pixels all have the same (r,g,b) value, of
    any positive width and height, the Laplacian filter yields an image
    whose every pixel is (0,0,0). *)
Theorem uniform_image_filters_to_black
    (nthreads : Z) (junk : nat -> PPMPixel) (px : PPMPixel) (W H : Z)
    (t0 t1 : timeval) (elapsedTime : Z) :
  1 <= nthreads <= INT_MAX -> 0 < W <= INT_MAX -> 0 < H <= INT_MAX ->
  fst (apply_filters nthreads junk (replicate (Z.to_nat (W * H)) px) W H
                     t0 t1 elapsedTime)
  = replicate (Z.to_nat (W * H)) (mkPixel x00 x00 x00).
Proof.
  intros HN HW HH. unfold apply_filters. simpl.
  rewrite run_workers_convolve_image
    by (try apply fresh_buffer_length; assumption).
  apply (list_eq_cells W H HW HH).
  - apply length_convolve_image; assumption.
  - apply length_replicate.
  - intros xy Hxy.
    rewrite lookup_convolve_image by assumption.
    rewrite conv_pixel_uniform by lia.
    symmetry. apply lookup_replicate_2. eapply cell_lt; eauto.
Qed.

(** ** Printing and scanning numbers *)

Lemma digit_byte d :
  0 <= d <= 9 -> byte_to_Z (Z_to_byte (ch "0" + d)) = 48 + d.
Proof.
  intros Hd. change (ch "0") with 48. apply byte_to_Z_to_byte. lia.
Qed.

Lemma isdigit_digit d :
  0 <= d <= 9 -> isdigit (byte_to_Z (Z_to_byte (ch "0" + d))) = true.
Proof.
  intros Hd. rewrite digit_byte by assumption. unfold isdigit.
  change (ch "0") with 48. change (ch "9") with 57.
  apply andb_true_intro. split; apply Z.leb_le; lia.
Qed.

Lemma digits_app n v acc : digits n v acc = digits n v [] ++ acc.
Proof.
  revert v acc. induction n as [|n IH]; intros v acc; simpl; [reflexivity |].
  destruct (v / 10 =? 0); [reflexivity |].
  rewrite IH. rewrite (IH _ [_]). rewrite <- app_assoc. reflexivity.
Qed.

Lemma digits_head n v acc :
  0 <= v ->
  exists c tl, digits (S n) v acc = c :: tl /\ isdigit (byte_to_Z c) = true.
Proof.
  revert v acc. induction n as [|n IH]; intros v acc Hv.
  - simpl. exists (Z_to_byte (ch "0" + v mod 10)).
    pose proof (Z.mod_pos_bound v 10 ltac:(lia)).
    destruct (v / 10 =? 0); eexists; (split; [reflexivity |]);
      apply isdigit_digit; lia.
  - change (digits (S (S n)) v acc)
      with (if v / 10 =? 0 then Z_to_byte (ch "0" + v mod 10) :: acc
            else digits (S n) (v / 10) (Z_to_byte (ch "0" + v mod 10) :: acc)).
    pose proof (Z.mod_pos_bound v 10 ltac:(lia)).
    destruct (v / 10 =? 0).
    + eexists _, _. split; [reflexivity |]. apply isdigit_digit. lia.
    + apply IH. apply Z.div_pos; lia.
Qed.

(** Scanning the digits of a number adds the number to what was scanned. *)
Lemma scan_digits_digits n v a acc :
  0 <= v < 10 ^ Z.of_nat n ->
  exists k, 0 <= k /\ scan_digits a (digits n v acc) = scan_digits (a * 10 ^ k + v) acc.
Proof.
  revert v a acc. induction n as [|n IH]; intros v a acc Hv.
  - exists 0. simpl in *. replace v with 0 by lia.
    split; [lia |]. f_equal. lia.
  - pose proof (Z.mod_pos_bound v 10 ltac:(lia)) as Hd.
    pose proof (Z.div_mod v 10 ltac:(lia)) as Hv10.
    simpl digits.
    destruct (Z.eqb_spec (v / 10) 0) as [E0 | Hne].
    + exists 1. split; [lia |]. simpl scan_digits.
      rewrite isdigit_digit, digit_byte by lia.
      change (ch "0") with 48. f_equal. lia.
    + destruct (IH (v / 10) a (Z_to_byte (ch "0" + v mod 10) :: acc))
        as (k & Hk & Hscan).
      { split; [apply Z.div_pos; lia |].
        apply Z.div_lt_upper_bound; [lia |].
        rewrite Nat2Z.inj_succ, Z.pow_succ_r in Hv by lia. lia. }
      exists (k + 1). split; [lia |].
      rewrite Hscan. simpl scan_digits.
      rewrite isdigit_digit, digit_byte by lia.
      change (ch "0") with 48. f_equal.
      rewrite Z.pow_add_r by lia. lia.
Qed.

Lemma scan_digits_stop a fp : no_digit_ahead fp -> scan_digits a fp = (a, fp).
Proof.
  destruct fp as [|c fp]; simpl; [reflexivity |].
  intros ->. reflexivity.
Qed.

Lemma scan_print_lu v fp :
  0 <= v < 2 ^ 64 -> no_digit_ahead fp ->
  scan_digits 0 (print_lu v ++ fp) = (v, fp).
Proof.
  intros Hv Hfp. unfold print_lu. rewrite to_ulong_small by assumption.
  rewrite <- digits_app.
  destruct (scan_digits_digits 20 v 0 fp) as (k & Hk & ->).
  { change (10 ^ Z.of_nat 20) with 100000000000000000000. lia. }
  simpl. apply scan_digits_stop. exact Hfp.
Qed.

Lemma isdigit_not_space c : isdigit c = true -> isspace c = false.
Proof.
  unfold isdigit, isspace. change (ch "0") with 48. change (ch "9") with 57.
  intros Hd. apply andb_prop in Hd as [H1 H2].
  apply Z.leb_le in H1, H2.
  rewrite (proj2 (Z.eqb_neq c 32)) by lia.
  rewrite (proj2 (Z.leb_gt c 13)) by lia.
  rewrite andb_false_r. reflexivity.
Qed.

Lemma isdigit_range c : isdigit c = true -> 48 <= c <= 57.
Proof.
  unfold isdigit. change (ch "0") with 48. change (ch "9") with 57.
  intros Hd. apply andb_prop in Hd as [H1 H2].
  apply Z.leb_le in H1, H2. lia.
Qed.

(** [%ld] reads back what [%lu] printed. *)
Lemma scan_integer_print_lu v fp :
  0 <= v <= LONG_MAX -> no_digit_ahead fp ->
  scan_integer (print_lu v ++ fp) = Some (v, fp).
Proof.
  unfold LONG_MAX. intros Hv Hfp.
  pose proof (scan_print_lu v fp ltac:(lia) Hfp) as Hscan.
  unfold print_lu in *.
  destruct (digits_head 19 (to_ulong v) [] (proj1 (to_ulong_range v)))
    as (c & tl & E & Hc).
  rewrite E in *. unfold scan_integer.
  pose proof (isdigit_range _ Hc) as Hr.
  simpl skip_space. rewrite (isdigit_not_space _ Hc).
  change (ch "-") with 45. change (ch "+") with 43.
  rewrite (proj2 (Z.eqb_neq _ 45)), (proj2 (Z.eqb_neq _ 43)) by lia.
  simpl app at 1. rewrite Hc. simpl app in Hscan. rewrite Hscan.
  unfold clamp_long, LONG_MAX, LONG_MIN. do 2 f_equal. lia.
Qed.

(** ** Reading the header *)

Lemma skip_line_newline fuel fp :
  skip_line (S fuel) (newline :: fp) = Some fp.
Proof. reflexivity. Qed.

Lemma skip_comments_none fuel x fp :
  x <> ch "#" -> skip_comments (S fuel) x fp = Some (x, fp).
Proof.
  intros Hx. simpl. rewrite (proj2 (Z.eqb_neq _ _) Hx). reflexivity.
Qed.

Lemma ungetc_getc c fp : ungetc (byte_to_Z c) fp = c :: fp.
Proof.
  unfold ungetc, EOF. pose proof (byte_to_Z_range c).
  rewrite (proj2 (Z.eqb_neq _ _)) by lia.
  rewrite Z_to_byte_to_Z. reflexivity.
Qed.

Lemma header_stream width height data :
  header width height ++ data
  = ["P"; "6"; newline]%byte
    ++ print_lu width
    ++ " "%byte :: print_lu height
    ++ newline :: ["2"; "5"; "5"; newline]%byte ++ data.
Proof.
  unfold header.
  change (print_d RGB_COMPONENT_COLOR) with ["2"; "5"; "5"]%byte.
  rewrite <- !app_assoc. reflexivity.
Qed.

Lemma skip_space_digit c fp :
  isdigit (byte_to_Z c) = true -> skip_space (c :: fp) = c :: fp.
Proof. intros Hc. simpl. rewrite (isdigit_not_space _ Hc). reflexivity. Qed.

(** The header [write_image] writes is read back as it was written. *)
Lemma read_header_written fuel filename width height data :
  0 <= width <= LONG_MAX -> 0 <= height <= LONG_MAX ->
  read_header (S fuel) filename (header width height ++ data)
  = Some (Returned (width, height, data)).
Proof.
  intros Hw Hh. rewrite header_stream.
  set (S2 := newline :: ["2"; "5"; "5"; newline]%byte ++ data).
  set (S1 := " "%byte :: print_lu height ++ S2).
  assert (no_digit_ahead S1) as Hnd1 by reflexivity.
  assert (no_digit_ahead S2) as Hnd2 by reflexivity.
  pose proof (scan_integer_print_lu width S1 Hw Hnd1) as Hscan1.
  pose proof (scan_integer_print_lu height S2 Hh Hnd2) as Hscan2.
  destruct (digits_head 19 (to_ulong width) [] (proj1 (to_ulong_range width)))
    as (c & tl & E & Hc).
  destruct (digits_head 19 (to_ulong height) [] (proj1 (to_ulong_range height)))
    as (c' & tl' & E' & Hc').
  change (digits 20 (to_ulong width) []) with (print_lu width) in E.
  change (digits 20 (to_ulong height) []) with (print_lu height) in E'.
  assert (skip_space S1 = print_lu height ++ S2) as Hskip.
  { unfold S1. change (skip_space (" "%byte :: ?l)) with (skip_space l).
    rewrite E'. apply (skip_space_digit c' (tl' ++ S2) Hc'). }
  pose proof (isdigit_range _ Hc) as Hr.
  unfold LONG_MAX in *.
  unfold read_header.
  change (fgets sizeof_buff (["P"; "6"; newline]%byte ++ ?l))
    with (Some ["P"; "6"; newline; x00]%byte, l).
  cbv beta iota.
  change (negb (byte_to_Z (nth 0 ["P"; "6"; newline; x00]%byte x00) =? ch "P")
          || negb (byte_to_Z (nth 1 ["P"; "6"; newline; x00]%byte x00) =? ch "6"))
    with false.
  cbv beta iota.
  assert (getc (print_lu width ++ S1) = (byte_to_Z c, tl ++ S1)) as ->
    by (rewrite E; reflexivity).
  cbv beta iota.
  rewrite skip_comments_none by (change (ch "#") with 35; lia).
  cbv beta iota.
  rewrite ungetc_getc.
  change (c :: tl ++ S1) with ((c :: tl) ++ S1). rewrite <- E.
  unfold fscanf_ld_ld. rewrite Hscan1, Hskip, Hscan2.
  cbv beta iota.
  rewrite !to_ulong_small by lia.
  change (negb (2 =? 2)) with false. cbv beta iota.
  change (fscanf_d S2) with (1, 255, newline :: data).
  cbv beta iota.
  change (negb (1 =? 1) || negb (255 =? RGB_COMPONENT_COLOR)) with false.
  cbv beta iota. rewrite skip_line_newline. reflexivity.
Qed.

(** ** Reading and writing the pixels *)

Lemma triplets_pixel_bytes image : triplets (pixel_bytes image) = image.
Proof.
  induction image as [|[cr cg cb] image IH]; simpl; [reflexivity |].
  f_equal. exact IH.
Qed.

Lemma length_pixel_bytes image :
  length (pixel_bytes image) = (3 * length image)%nat.
Proof. induction image as [|px image IH]; simpl; lia. Qed.

Lemma length_triplets data : (3 * length (triplets data) <= length data)%nat.
Proof.
  assert (forall n data, (length data < n)%nat ->
            (3 * length (triplets data) <= length data)%nat) as Hn.
  { intros n. induction n as [|n IH]; intros d Hd; [lia |].
    destruct d as [|c0 [|c1 [|c2 d]]]; simpl in *; try lia.
    specialize (IH d). lia. }
  apply (Hn (S (length data))). lia.
Qed.

(** The loop over the pixels: the cells before [i] stay, the next cells
    receive the pixels the stream holds, as far as it holds whole pixels,
    and the cells after them keep what they held. *)
Lemma read_pixels_spec fuel i n fp img :
  0 <= i <= n -> n <= INT_MAX -> length img = Z.to_nat n ->
  n - i < Z.of_nat fuel ->
  read_pixels fuel i n fp img
  = Some (take (Z.to_nat i) img
          ++ take (Z.to_nat (n - i)) (triplets fp)
          ++ drop (Z.to_nat i + min (Z.to_nat (n - i)) (length (triplets fp))) img).
Proof.
  unfold INT_MAX. revert i fp img.
  induction fuel as [|fuel IH]; intros i fp img Hi Hn Hlen Hfuel; [lia |].
  cbn [read_pixels]. rewrite (to_ulong_small i) by lia.
  destruct (Z.ltb_spec i n) as [Hlt | Hge].
  - assert (forall l : list PPMPixel, take (Z.to_nat i) l ++ [] ++ drop (Z.to_nat i + 0) l = l)
      as Hsame by (intros l; rewrite Nat.add_0_r; apply take_drop).
    destruct fp as [|c0 [|c1 [|c2 fp]]];
      try (cbn [fread3 triplets length]; rewrite take_nil, Nat.min_0_r, Hsame;
           reflexivity).
    cbn [fread3 triplets length].
    rewrite (to_int_small (i + 1)) by lia.
    rewrite store_insert by lia.
    rewrite IH by (rewrite ?length_insert; lia).
    f_equal.
    replace (Z.to_nat (i + 1)) with (S (Z.to_nat i)) by lia.
    replace (Z.to_nat (n - i)) with (S (Z.to_nat (n - (i + 1)))) by lia.
    rewrite (take_S_r _ _ (mkPixel c0 c1 c2))
      by (apply list_lookup_insert_eq; lia).
    rewrite take_insert_ge by lia.
    rewrite drop_insert_lt by lia.
    cbn [take]. rewrite <- Nat.succ_min_distr.
    rewrite <- app_assoc. cbn [app].
    rewrite Nat.add_succ_comm. reflexivity.
  - assert (i = n) as -> by lia.
    rewrite Z.sub_diag. cbn [Z.to_nat take app].
    rewrite take_ge, drop_ge by lia. rewrite app_nil_r. reflexivity.
Qed.


(** The result of [read_image] on a file whose header is well formed. *)
Lemma read_image_pixels fuel junk fs filename fp width height data :
  fopen_rb fs filename = Some fp ->
  read_header fuel filename fp = Some (Returned (width, height, data)) ->
  0 <= width -> 0 <= height -> width * height <= INT_MAX ->
  width * height < Z.of_nat fuel ->
  read_image fuel junk fs filename
  = Some (Returned
            (take (Z.to_nat (width * height)) (triplets data)
             ++ drop (length (triplets data))
                     (malloc junk (to_ulong (to_ulong (width * height)
                                             * sizeof_PPMPixel))),
             width, height)).
Proof.
  unfold INT_MAX. intros Hopen Hhead Hw Hh Hn Hfuel.
  unfold read_image. rewrite Hopen, Hhead.
  assert (0 <= width * height) as Hn0 by nia.
  set (img := malloc junk _).
  assert (length img = Z.to_nat (width * height)) as Hlen
    by (apply malloc_pixels_length; lia).
  rewrite (to_ulong_small (width * height)) by lia.
  rewrite read_pixels_spec by (unfold INT_MAX; lia).
  rewrite Z.sub_0_r. cbn [Z.to_nat take app Nat.add].
  do 3 f_equal.
  destruct (Nat.le_ge_cases (Z.to_nat (width * height)) (length (triplets data)))
    as [Hle | Hle].
  - rewrite Nat.min_l by exact Hle. rewrite !drop_ge by lia. reflexivity.
  - rewrite Nat.min_r by exact Hle. reflexivity.
Qed.


(** C7: for a well-formed image with positive width and height (the
    pixel count within the range of the [int] counter of the reading
    loop), [read_image] applied to the file [write_image] wrote yields the
    image again, with the width and the height of the header. *)
Theorem decode_encode_round_trip
    (fuel : nat) (junk : nat -> PPMPixel) (fs : filesystem) (filename : string)
    (image : list PPMPixel) (W H : Z) :
  0 < W -> 0 < H -> W * H <= INT_MAX ->
  length image = Z.to_nat (W * H) ->
  filename ∉ unwritable fs ->
  W * H < Z.of_nat fuel ->
  exists fs',
    write_image image filename W H fs = Written fs'
    /\ fopen_rb fs' filename = Some (header W H ++ pixel_bytes image)
    /\ read_header fuel filename (header W H ++ pixel_bytes image)
       = Some (Returned (W, H, pixel_bytes image))
    /\ read_image fuel junk fs' filename = Some (Returned (image, W, H)).
Proof.
  unfold INT_MAX. intros HW HH Hn Hlen Hwr Hfuel.
  assert (0 < W * H) as Hpos by nia.
  assert (W <= W * H /\ H <= W * H) as [HWn HHn] by nia.
  exists (mkFs (<[filename := header W H ++ pixel_bytes image]> (files fs))
               (unwritable fs)).
  assert (read_header fuel filename (header W H ++ pixel_bytes image)
          = Some (Returned (W, H, pixel_bytes image))) as Hhead.
  { destruct fuel as [|fuel]; [lia |].
    apply read_header_written; unfold LONG_MAX; lia. }
  assert (fopen_rb (mkFs (<[filename := header W H ++ pixel_bytes image]> (files fs))
                         (unwritable fs)) filename
          = Some (header W H ++ pixel_bytes image)) as Hopen.
  { unfold fopen_rb. simpl. apply lookup_insert_eq. }
  split; [| split; [exact Hopen | split; [exact Hhead |]]].
  - unfold write_image, fopen_wb. rewrite bool_decide_eq_true_2 by exact Hwr.
    fold (header W H).
    rewrite take_ge; [reflexivity |].
    rewrite length_pixel_bytes, Hlen, (to_ulong_small (3 * W)) by lia.
    apply Nat2Z.inj_le. rewrite Nat2Z.inj_mul, !Z2Nat.id by nia. lia.
  - rewrite (read_image_pixels fuel junk _ filename _ W H (pixel_bytes image)
               Hopen Hhead)
      by (unfold INT_MAX; lia).
    rewrite triplets_pixel_bytes.
    rewrite take_ge by lia.
    rewrite drop_ge by (rewrite malloc_pixels_length; lia).
    rewrite app_nil_r. reflexivity.
Qed.


(** ** The format marker *)

Lemma fgets_chars_cons n c fp :
  fgets_chars (S n) (c :: fp)
  = if byte_to_Z c =? ch newline then ([c], fp)
    else (c :: fst (fgets_chars n fp), snd (fgets_chars n fp)).
Proof.
  simpl. destruct (byte_to_Z c =? ch newline); [reflexivity |].
  destruct (fgets_chars n fp). reflexivity.
Qed.

(** The test [read_image] makes on the buffer of [fgets] is a test on the
    first two bytes of the file. *)
Lemma marker_test fp :
  match fst (fgets sizeof_buff fp) with
  | None => true
  | Some buff =>
      negb (byte_to_Z (nth 0 buff x00) =? ch "P")
      || negb (byte_to_Z (nth 1 buff x00) =? ch "6")
  end
  = marker_missing fp.
Proof.
  unfold fgets. change (Z.to_nat (sizeof_buff - 1)) with (S (S 61)).
  destruct fp as [|c0 [|c1 fp]].
  - reflexivity.
  - rewrite fgets_chars_cons.
    destruct (Z.eqb_spec (byte_to_Z c0) (ch newline)) as [E | _]; simpl.
    + rewrite E. reflexivity.
    + rewrite orb_true_r. reflexivity.
  - rewrite fgets_chars_cons.
    destruct (Z.eqb_spec (byte_to_Z c0) (ch newline)) as [E0 | _].
    { simpl. rewrite E0. reflexivity. }
    rewrite fgets_chars_cons.
    destruct (Z.eqb_spec (byte_to_Z c1) (ch newline)) as [E1 | _].
    { simpl. rewrite E1. change (ch newline =? ch "6") with false.
      rewrite andb_false_r, orb_true_r. reflexivity. }
    cbn [fst snd app nth marker_missing].
    rewrite negb_andb. reflexivity.
Qed.

Lemma read_header_marker fuel filename fp :
  (exists msg, read_header fuel filename fp = Some (Exited FormatError msg))
  <-> marker_missing fp = true.
Proof.
  pose proof (marker_test fp) as Ht. unfold read_header.
  destruct (fgets sizeof_buff fp) as [buff fp1]. simpl fst in Ht.
  rewrite Ht. clear Ht.
  destruct (marker_missing fp).
  - split; [reflexivity | eauto].
  - split; [| discriminate]. intros [msg E]. exfalso. revert E.
    destruct (getc fp1) as [x fp2].
    destruct (skip_comments fuel x fp2) as [[x' fp3]|]; [| discriminate].
    destruct (fscanf_ld_ld (ungetc x' fp3)) as [[n [wd ht]] fp4].
    destruct (negb (n =? 2)); [discriminate |].
    destruct (fscanf_d fp4) as [[n' c] fp5].
    destruct (negb (n' =? 1) || negb (c =? RGB_COMPONENT_COLOR));
      [discriminate |].
    destruct (skip_line fuel fp5); discriminate.
Qed.

(** C10: the validation of the format marker ends the task with a format
    error exactly when the file does not begin with the two bytes 'P' and
    '6'; whatever follows them on the first line, the marker passes. *)
Theorem format_error_iff_first_two_bytes
    (fuel : nat) (junk : nat -> PPMPixel) (fs : filesystem) (filename : string)
    (fp : list byte) :
  fopen_rb fs filename = Some fp ->
  ((exists msg, read_image fuel junk fs filename = Some (Exited FormatError msg))
   <-> ~ (exists rest, fp = "P"%byte :: "6"%byte :: rest)).
Proof.
  intros Hopen.
  assert (marker_missing fp = true
          <-> ~ (exists rest, fp = "P"%byte :: "6"%byte :: rest)) as Hm.
  { destruct fp as [|c0 [|c1 fp]]; simpl.
    - split; [intros _ [rest E]; discriminate | reflexivity].
    - split; [intros _ [rest E]; discriminate | reflexivity].
    - rewrite negb_true_iff, andb_false_iff, !Z.eqb_neq. split.
      + intros Hne [rest E]. inversion E; subst. destruct Hne as [Hne | Hne];
          apply Hne; reflexivity.
      + intros Hn.
        destruct (Z.eq_dec (byte_to_Z c0) (ch "P")) as [E0 | Hne]; [| auto].
        destruct (Z.eq_dec (byte_to_Z c1) (ch "6")) as [E1 | Hne]; [| auto].
        exfalso. apply Hn. exists fp.
        apply byte_to_Z_inj in E0, E1. subst. reflexivity. }
  rewrite <- Hm, <- (read_header_marker fuel filename fp).
  unfold read_image. rewrite Hopen.
  destruct (read_header fuel filename fp) as [[[[wd ht] data] | e msg]|].
  - destruct (read_pixels _ _ _ _ _); split; intros [m E]; discriminate.
  - split; intros [m E]; exists m; inversion E; reflexivity.
  - split; intros [m E]; discriminate.
Qed.

(** ** Headers that end too early *)

Lemma skip_line_no_newline fuel fp :
  Forall (fun c => byte_to_Z c <> ch newline) fp -> skip_line fuel fp = None.
Proof.
  revert fp. induction fuel as [|fuel IH]; intros fp Hfp; [reflexivity |].
  destruct Hfp as [|c fp Hc Hfp]; simpl.
  - apply IH. constructor.
  - rewrite (proj2 (Z.eqb_neq _ _) Hc). apply IH. exact Hfp.
Qed.

(** C9: [read_image] does not return on a file that ends inside a comment
    line of the header, nor on one that ends before the newline after the
    maximum colour value: at the end of the file [getc] answers [EOF] for
    ever, and the loops that wait for the newline use up any fuel. *)
Theorem read_image_never_returns_past_end_of_header
    (fuel : nat) (junk : nat -> PPMPixel) :
  read_image fuel junk (mkFs {["in.ppm"%string := ends_in_comment]} ∅) "in.ppm"
  = None
  /\ read_image fuel junk (mkFs {["in.ppm"%string := ends_after_maxval]} ∅) "in.ppm"
     = None.
Proof.
  unfold read_image, fopen_rb. simpl files. rewrite !lookup_singleton_eq.
  split.
  - replace (read_header fuel "in.ppm" ends_in_comment) with
      (@None (result (Z * Z * list byte))); [reflexivity |].
    unfold read_header, ends_in_comment.
    change (fgets sizeof_buff ?l)
      with (Some ["P"; "6"; newline; x00]%byte, ["#"; "a"; "b"; "c"]%byte).
    cbv beta iota.
    change (negb (byte_to_Z (nth 0 ["P"; "6"; newline; x00]%byte x00) =? ch "P")
            || negb (byte_to_Z (nth 1 ["P"; "6"; newline; x00]%byte x00) =? ch "6"))
      with false.
    cbv beta iota.
    change (getc ["#"; "a"; "b"; "c"]%byte) with (ch "#", ["a"; "b"; "c"]%byte).
    cbv beta iota.
    destruct fuel as [|fuel]; [reflexivity |].
    cbn [skip_comments]. rewrite Z.eqb_refl.
    rewrite skip_line_no_newline; [reflexivity |].
    repeat constructor; discriminate.
  - replace (read_header fuel "in.ppm" ends_after_maxval) with
      (@None (result (Z * Z * list byte))); [reflexivity |].
    unfold read_header, ends_after_maxval.
    change (fgets sizeof_buff ?l)
      with (Some ["P"; "6"; newline; x00]%byte,
            ["1"; " "; "1"; newline; "2"; "5"; "5"]%byte).
    cbv beta iota.
    change (negb (byte_to_Z (nth 0 ["P"; "6"; newline; x00]%byte x00) =? ch "P")
            || negb (byte_to_Z (nth 1 ["P"; "6"; newline; x00]%byte x00) =? ch "6"))
      with false.
    cbv beta iota.
    change (getc ["1"; " "; "1"; newline; "2"; "5"; "5"]%byte)
      with (ch "1", [" "; "1"; newline; "2"; "5"; "5"]%byte).
    cbv beta iota.
    destruct fuel as [|fuel]; [reflexivity |].
    rewrite skip_comments_none by discriminate.
    change (ungetc (ch "1") ?l) with ("1"%byte :: l).
    change (fscanf_ld_ld ["1"; " "; "1"; newline; "2"; "5"; "5"]%byte)
      with (2, (1, 1), [newline; "2"; "5"; "5"]%byte).
    cbv beta iota. change (negb (2 =? 2)) with false. cbv beta iota.
    change (fscanf_d [newline; "2"; "5"; "5"]%byte) with (1, 255, @nil byte).
    cbv beta iota.
    change (negb (1 =? 1) || negb (255 =? RGB_COMPONENT_COLOR)) with false.
    cbv beta iota.
    rewrite skip_line_no_newline; [reflexivity | constructor].
Qed.

(** ** The batch *)

(** C5: with an output path that cannot be opened for writing,
    [write_image] reports the error and then does not skip the encoding:
    it goes on with the null stream, and the run of the program is lost
    with the task, before the sibling task and the line of the total time. *)
Theorem write_image_goes_on_with_null_stream (image : list PPMPixel) (W H : Z) :
  write_image image "laplacian1.ppm" W H locked_fs
  = NullStream ("Unable to open file 'laplacian1.ppm'" +:+ nl)
  /\ option_map snd
       (manage_image_file 10 sample_env (make_args 0 "a.ppm")
                          (mkWorld locked_fs [] 0))
     = Some ProcessUndefined
  /\ option_map snd
       (main 10 (fun _ => sample_env) ["edge"; "a.ppm"; "c.ppm"]%string
             (mkWorld locked_fs [] 0))
     = Some Lost
  /\ option_map (fun r => stderr (fst r))
       (main 10 (fun _ => sample_env) ["edge"; "a.ppm"; "c.ppm"]%string
             (mkWorld locked_fs [] 0))
     = Some ["Unable to open file 'laplacian1.ppm'" +:+ nl]
  /\ option_map (fun r => files (fs (fst r)))
       (main 10 (fun _ => sample_env) ["edge"; "a.ppm"; "c.ppm"]%string
             (mkWorld locked_fs [] 0))
     = Some (files locked_fs).
Proof.
  split; [reflexivity |].
  split; [vm_compute; reflexivity |].
  split; [vm_compute; reflexivity |].
  split; vm_compute; reflexivity.
Qed.





(** ** The properties on sample inputs *)

Lemma worker_stores_clamped_convolution_witness :
  exists px,
    compute_laplacian_threadfn (mkParameter red_2x2 2 2 0 2) (malloc grey_junk 12)
      !! Z.to_nat (1 * 2 + 1) = Some px
    /\ byte_to_Z (r px) = clamp (conv_sum r red_2x2 2 2 1 1)
    /\ byte_to_Z (g px) = clamp (conv_sum g red_2x2 2 2 1 1)
    /\ byte_to_Z (b px) = clamp (conv_sum b red_2x2 2 2 1 1).
Proof.
  apply (worker_stores_clamped_convolution
           (mkParameter red_2x2 2 2 0 2) (malloc grey_junk 12) 1 1);
    unfold rows_in_image, INT_MAX; simpl; try reflexivity; lia.
Defined.

Lemma partitions_cover_rows_witness :
  length (partitions 23 5) = Z.to_nat 23
  /\ contiguous 0 (partitions 23 5) 5
  /\ partitions 23 5 !! 22%nat = Some (0, 5).
Proof.
  destruct (partitions_cover_rows 23 5) as (Hlen & Hl & Hc & _);
    [unfold INT_MAX; lia | unfold INT_MAX; lia |].
  split; [exact Hlen |]. split; [exact Hc |].
  exact (Hl 22 ltac:(lia)).
Defined.

Lemma parallel_pass_equals_sequential_convolution_witness :
  (forall t0 t1 elapsedTime,
      fst (apply_filters LAPLACIAN_THREADS grey_junk red_2x2 2 2 t0 t1 elapsedTime)
      = convolve_image red_2x2 2 2)
  /\ (forall sched result,
        apply_filters_sched LAPLACIAN_THREADS grey_junk red_2x2 2 2 sched = Some result ->
        result = convolve_image red_2x2 2 2)
  /\ (exists sched,
        apply_filters_sched LAPLACIAN_THREADS grey_junk red_2x2 2 2 sched
        = Some (convolve_image red_2x2 2 2))
  /\ compute_laplacian_threadfn
       (mkParameter red_2x2 2 2 0 2)
       (malloc grey_junk (to_ulong (to_ulong (2 * 2) * sizeof_PPMPixel)))
     = convolve_image red_2x2 2 2.
Proof.
  apply (parallel_pass_equals_sequential_convolution
           LAPLACIAN_THREADS grey_junk red_2x2 2 2);
    unfold LAPLACIAN_THREADS, INT_MAX; try reflexivity; lia.
Defined.

Lemma uniform_image_filters_to_black_witness :
  fst (apply_filters LAPLACIAN_THREADS grey_junk
                     (replicate (Z.to_nat (2 * 2)) red_pixel) 2 2
                     (mkTimeval 0 0) (mkTimeval 1 0) 0)
  = replicate (Z.to_nat (2 * 2)) (mkPixel x00 x00 x00).
Proof.
  apply (uniform_image_filters_to_black LAPLACIAN_THREADS grey_junk red_pixel 2 2);
    unfold LAPLACIAN_THREADS, INT_MAX; lia.
Defined.


Lemma decode_encode_round_trip_witness :
  exists fs',
    write_image red_2x2 "out.ppm" 2 2 sample_fs = Written fs'
    /\ fopen_rb fs' "out.ppm" = Some (header 2 2 ++ pixel_bytes red_2x2)
    /\ read_header 10 "out.ppm" (header 2 2 ++ pixel_bytes red_2x2)
       = Some (Returned (2, 2, pixel_bytes red_2x2))
    /\ read_image 10 grey_junk fs' "out.ppm" = Some (Returned (red_2x2, 2, 2)).
Proof.
  apply (decode_encode_round_trip 10 grey_junk sample_fs "out.ppm" red_2x2 2 2);
    unfold INT_MAX; try reflexivity; try lia.
  apply not_elem_of_empty.
Defined.


Lemma format_error_iff_first_two_bytes_witness :
  (exists msg,
      read_image 10 grey_junk (mkFs {["x.ppm"%string := long_marker_file]} ∅) "x.ppm"
      = Some (Exited FormatError msg))
  <-> ~ (exists rest, long_marker_file = "P"%byte :: "6"%byte :: rest).
Proof.
  apply (format_error_iff_first_two_bytes
           10 grey_junk (mkFs {["x.ppm"%string := long_marker_file]} ∅) "x.ppm"
           long_marker_file).
  apply lookup_singleton_eq.
Defined.

(** A first line of "P6xyz" passes the marker check, and the file is read. *)
Example long_marker_accepted :
  read_image 10 grey_junk (mkFs {["x.ppm"%string := long_marker_file]} ∅) "x.ppm"
  = Some (Returned (one_pixel, 1, 1)).
Proof. vm_compute. reflexivity. Qed.

(** The three other decode failures, each on a file of its own. *)
Example decode_failures :
  read_image 10 grey_junk sample_fs "none.ppm"
  = Some (Exited IOError ("Unable to open file 'none.ppm'" +:+ nl))
  /\ read_image 10 grey_junk
       (mkFs {["s.ppm"%string := ["P"; "6"; newline; "x"; newline]%byte]} ∅) "s.ppm"
     = Some (Exited SizeError ("Invalid image size error 's.ppm'" +:+ nl))
  /\ read_image 10 grey_junk
       (mkFs {["m.ppm"%string :=
                 ["P"; "6"; newline; "1"; " "; "1"; newline; "9"; newline]%byte]} ∅)
       "m.ppm"
     = Some (Exited RangeError
               ("'m.ppm' is not have a valid 255 components" +:+ nl)).
Proof. repeat split; vm_compute; reflexivity. Qed.

(** The batch of three files whose second has a bad marker: the outputs 1
    and 3 are written, no output 2, and [main] prints the total time. *)
Example batch_with_bad_marker :
  exists wd',
    main 10 (fun _ => sample_env) ["edge"; "a.ppm"; "bad.ppm"; "c.ppm"]%string
         (mkWorld sample_fs [] 0)
    = Some (wd', Exit 0 (Some 2400000))
    /\ files (fs wd') !! "laplacian1.ppm"%string
       = Some (header 2 2 ++ pixel_bytes (replicate 4 (mkPixel x00 x00 x00)))
    /\ files (fs wd') !! "laplacian2.ppm"%string = None
    /\ files (fs wd') !! "laplacian3.ppm"%string
       = Some (header 1 1 ++ pixel_bytes [mkPixel x00 x00 x00])
    /\ stderr wd' = ["Invalid image format error must be 'P6'" +:+ nl].
Proof.
  destruct (main 10 (fun _ => sample_env)
                 ["edge"; "a.ppm"; "bad.ppm"; "c.ppm"]%string
                 (mkWorld sample_fs [] 0)) as [[wd' e]|] eqn:E;
    vm_compute in E; [| discriminate].
  exists wd'. inversion E; subst. repeat split; vm_compute; reflexivity.
Qed.

(** A 1x1 image: every neighbour is the pixel itself, and the one row
    goes to the last worker. *)
Example one_pixel_filters_to_black :
  fst (apply_filters LAPLACIAN_THREADS grey_junk one_pixel 1 1
                     (mkTimeval 0 0) (mkTimeval 1 0) 0)
  = [mkPixel x00 x00 x00]
  /\ partitions LAPLACIAN_THREADS 1 !! 22%nat = Some (0, 1).
Proof. split; vm_compute; reflexivity. Qed.

(** The border wraps: pixel (0,0) of [corner_3x3] has the sum
    8 * 30 - 5 * 100 = -260 with its neighbours across the borders, and is
    stored as 0; with zeros outside the image its sum would be 240. *)
Example toroidal_corner :
  conv_sum r corner_3x3 3 3 0 0 = -260
  /\ fst (apply_filters LAPLACIAN_THREADS grey_junk corner_3x3 3 3
                        (mkTimeval 0 0) (mkTimeval 1 0) 0) !! 0%nat
     = Some (mkPixel x00 x00 x00).
Proof. split; vm_compute; reflexivity. Qed.

(** The clamped sums of the specification: a neighbourhood whose sum is
    300 is stored as 255 and one whose sum is -50 as 0. *)
Example clamping : truncate 300 = 255 /\ truncate (-50) = 0 /\ truncate 77 = 77.
Proof. repeat split. Qed.

(** * Further properties *)

(** ** The worker and its rows *)

Lemma thread_steps_empty param :
  w param <= 0 \/ (size param = 0 /\ 0 <= start param <= INT_MAX) ->
  thread_steps param = [].
Proof.
  unfold thread_steps, INT_MAX. intros [Hw | [Hn Hs]].
  - rewrite (seqZ_nil 0) by lia. reflexivity.
  - rewrite Hn, Z.add_0_r.
    rewrite to_int_small, to_ulong_small by lia.
    rewrite Z.sub_diag. rewrite (seqZ_nil (start param)) by lia.
    induction (seqZ 0 (w param - 0)) as [|x l IH]; [reflexivity | exact IH].
Qed.

Lemma threadfn_idle param result :
  w param <= 0 \/ (size param = 0 /\ 0 <= start param <= INT_MAX) ->
  compute_laplacian_threadfn param result = result.
Proof.
  intros Hempty. rewrite threadfn_steps, thread_steps_empty by exact Hempty.
  reflexivity.
Qed.

(** X1: a worker whose range of rows is empty, or whose image has no
    column, leaves the buffer as it found it, whatever the height of the
    image (no row index is reduced modulo a height of zero). *)
Theorem worker_without_rows_is_idle (param : parameter) (result : list PPMPixel) :
  w param <= 0 \/ (size param = 0 /\ 0 <= start param <= INT_MAX) ->
  compute_laplacian_threadfn param result = result.
Proof.
  intros Hempty. rewrite threadfn_steps.
  assert (thread_steps param = []) as -> by (apply thread_steps_empty; exact Hempty).
  reflexivity.
Qed.

(** X2: a worker writes the rows of its range only: the cells of every
    other row of the image keep what they held, and the buffer keeps its
    size. *)
Theorem worker_leaves_other_rows
    (param : parameter) (result : list PPMPixel) (x y : Z) :
  0 < w param <= INT_MAX -> 0 < h param <= INT_MAX ->
  rows_in_image param ->
  length result = Z.to_nat (w param * h param) ->
  0 <= x < w param -> 0 <= y < h param -> ~ in_rows param y ->
  compute_laplacian_threadfn param result !! Z.to_nat (y * w param + x)
  = result !! Z.to_nat (y * w param + x)
  /\ length (compute_laplacian_threadfn param result) = length result.
Proof.
  intros Hw Hh Hrows Hlen Hx Hy Hout.
  assert (same_image (image param) (w param) (h param) param) as Hp
    by (repeat split).
  split.
  - change (Z.to_nat (y * w param + x)) with (cell (w param) (x, y)).
    rewrite (threadfn_lookup (image param) (w param) (h param) Hw Hh)
      by (try assumption; split; assumption).
    rewrite decide_False; [reflexivity |].
    intros Hin. apply elem_of_thread_steps in Hin as [_ Hin].
    destruct Hrows as (Hs & Hn & Hle). unfold INT_MAX in *.
    rewrite to_int_small, to_ulong_small in Hin by lia.
    apply Hout. exact Hin.
  - apply (threadfn_length (image param) (w param) (h param) Hw Hh);
      assumption.
Qed.

(** ** The workers of one pass *)

Lemma params_rows nthreads source W H (i : nat) p :
  1 <= nthreads <= INT_MAX -> 0 <= H <= INT_MAX ->
  params nthreads source W H !! i = Some p ->
  partitions nthreads H !! i = Some (start p, size p) /\ w p = W /\ h p = H.
Proof.
  intros HN HH Hl. unfold params in Hl. rewrite list_lookup_fmap in Hl.
  destruct (seqZ 0 nthreads !! i) as [j|] eqn:E; [| discriminate].
  apply lookup_seqZ in E as [-> Hi]. simpl in Hl. inversion Hl; subst p.
  split; [| split; reflexivity].
  destruct (make_param_rows nthreads source W H (0 + Z.of_nat i))
    as [-> ->]; try lia.
  replace (0 + Z.of_nat i) with (Z.of_nat i) by lia.
  rewrite <- (Nat2Z.id i) at 1. apply lookup_partitions; lia.
Qed.

Lemma workers_disjoint nthreads source W H (i j : nat) p q xy :
  1 <= nthreads <= INT_MAX -> 0 <= H <= INT_MAX ->
  params nthreads source W H !! i = Some p ->
  params nthreads source W H !! j = Some q ->
  xy ∈ thread_steps p -> xy ∈ thread_steps q ->
  i = j.
Proof.
  intros HN HH Hp Hq Hin_p Hin_q. destruct xy as [x y].
  apply params_rows in Hp as (Hp & _ & _); try assumption.
  apply params_rows in Hq as (Hq & _ & _); try assumption.
  pose proof (partitions_contiguous nthreads H HN HH) as Hc.
  pose proof (contiguous_within _ _ _ _ _ _ Hc Hp) as Hwp.
  pose proof (contiguous_within _ _ _ _ _ _ Hc Hq) as Hwq.
  apply elem_of_thread_steps in Hin_p as [_ Hyp].
  apply elem_of_thread_steps in Hin_q as [_ Hyq].
  unfold INT_MAX in *.
  rewrite to_int_small, to_ulong_small in Hyp, Hyq by lia.
  eapply (contiguous_disjoint 0 _ H i j); eauto.
Qed.

(** X3: no two workers of a pass are given the same pixel: a pixel among
    the steps of one worker is not among the steps of another. *)
Theorem workers_share_no_pixel
    (nthreads : Z) (source : list PPMPixel) (W H : Z)
    (i j : nat) (p q : parameter) (xy : Z * Z) :
  1 <= nthreads <= INT_MAX -> 0 <= H <= INT_MAX ->
  params nthreads source W H !! i = Some p ->
  params nthreads source W H !! j = Some q ->
  i <> j ->
  xy ∈ thread_steps p -> xy ∉ thread_steps q.
Proof.
  intros HN HH Hp Hq Hne Hin_p Hin_q. apply Hne.
  eapply workers_disjoint; eauto.
Qed.

(** X4: the rows are shared out evenly but for the remainder: every
    worker before the last has [H / nthreads] rows, the last has
    [H / nthreads + H mod nthreads], so that two workers differ by fewer
    rows than there are workers. *)
Theorem partition_sizes_balanced (nthreads H : Z) (i j : nat) s n s' n' :
  1 <= nthreads <= INT_MAX -> 0 <= H <= INT_MAX ->
  partitions nthreads H !! i = Some (s, n) ->
  partitions nthreads H !! j = Some (s', n') ->
  (n = if Z.of_nat i =? nthreads - 1
       then H / nthreads + H mod nthreads else H / nthreads)
  /\ Z.abs (n - n') < nthreads.
Proof.
  intros HN HH Hi Hj.
  apply lookup_partitions_inv in Hi as (Hi & _ & ->); try assumption.
  apply lookup_partitions_inv in Hj as (Hj & _ & ->); try assumption.
  pose proof (Z.div_mod H nthreads ltac:(lia)) as Hdm.
  pose proof (Z.mod_pos_bound H nthreads ltac:(lia)) as Hm.
  destruct (Z.eqb_spec (Z.of_nat i) (nthreads - 1)) as [Ei | Ei],
           (Z.eqb_spec (Z.of_nat j) (nthreads - 1)) as [Ej | Ej];
    (split; [| apply Z.abs_lt]); try rewrite Ei; try rewrite Ej; nia.
Qed.

Lemma run_workers_idle ps result :
  Forall (fun p => w p <= 0 \/ (size p = 0 /\ 0 <= start p <= INT_MAX)) ps ->
  run_workers ps result = result.
Proof.
  unfold run_workers. induction 1 as [|p ps Hp Hps IH]; simpl.
  - reflexivity.
  - rewrite threadfn_idle by exact Hp. exact IH.
Qed.

(** X5: for an image without rows or without columns no worker touches
    the buffer, and the pass returns the empty buffer. *)
Theorem empty_image_pass
    (nthreads : Z) (junk : nat -> PPMPixel) (source : list PPMPixel) (W H : Z)
    (t0 t1 : timeval) (elapsedTime : Z) (result : list PPMPixel) :
  1 <= nthreads <= INT_MAX -> 0 <= W -> 0 <= H <= INT_MAX ->
  W = 0 \/ H = 0 ->
  run_workers (params nthreads source W H) result = result
  /\ fst (apply_filters nthreads junk source W H t0 t1 elapsedTime) = [].
Proof.
  intros HN HW HH Hzero.
  assert (forall result,
             run_workers (params nthreads source W H) result = result) as Hidle.
  { intros res. apply run_workers_idle. apply Forall_lookup. intros i p Hl.
    destruct (params_rows _ _ _ _ _ _ HN HH Hl) as (Hp & Hw & Hh).
    destruct Hzero as [-> | ->]; [left; lia | right].
    apply lookup_partitions_inv in Hp as (Hi & Hs & Hn); try assumption.
    rewrite Z.div_0_l in Hs, Hn by lia.
    rewrite Hs, Hn. unfold INT_MAX.
    destruct (Z.of_nat i =? nthreads - 1); lia. }
  split; [apply Hidle |].
  unfold apply_filters. simpl. rewrite Hidle.
  replace (W * H) with 0 by (destruct Hzero; subst; lia).
  reflexivity.
Qed.

(** ** The loops of the header *)

Lemma skip_line_found fuel text fp :
  one_line text -> (length text < fuel)%nat ->
  skip_line fuel (text ++ newline :: fp) = Some fp.
Proof.
  intros Htext. revert fuel.
  induction Htext as [|c text Hc Htext IH]; intros fuel Hfuel;
    (destruct fuel as [|fuel]; [simpl in Hfuel; lia |]).
  - reflexivity.
  - simpl. rewrite (proj2 (Z.eqb_neq _ _) Hc). apply IH. simpl in Hfuel. lia.
Qed.


Lemma getc_comment_lines text comments rest :
  getc (comment_lines (text :: comments) ++ rest)
  = (ch "#", text ++ newline :: comment_lines comments ++ rest).
Proof.
  unfold comment_lines. simpl. rewrite <- !app_assoc. reflexivity.
Qed.

Lemma skip_comments_lines comments rest fuel :
  Forall one_line comments -> no_comment_ahead rest ->
  (length (comment_lines comments) < fuel)%nat ->
  skip_comments fuel (fst (getc (comment_lines comments ++ rest)))
                (snd (getc (comment_lines comments ++ rest)))
  = Some (getc rest).
Proof.
  intros Hlines Hrest. revert fuel.
  induction Hlines as [|text comments Htext Hlines IH]; intros fuel Hfuel;
    (destruct fuel as [|fuel]; [simpl in Hfuel; lia |]).
  - simpl app. destruct (getc rest) as [x fp] eqn:E. simpl.
    unfold no_comment_ahead in Hrest. rewrite E in Hrest. simpl in Hrest.
    rewrite (proj2 (Z.eqb_neq _ _) Hrest). reflexivity.
  - rewrite getc_comment_lines. cbn [fst snd skip_comments].
    rewrite Z.eqb_refl.
    assert (length (comment_lines (text :: comments))
            = (S (length text + 1) + length (comment_lines comments))%nat) as Hl
      by (unfold comment_lines; simpl; rewrite !length_app; simpl; lia).
    rewrite skip_line_found by (try assumption; lia).
    specialize (IH fuel ltac:(lia)).
    destruct (getc (comment_lines comments ++ rest)) as [x fp]. exact IH.
Qed.

Lemma fgets_marker fp :
  fgets sizeof_buff (marker ++ fp) = (Some ["P"; "6"; newline; x00]%byte, fp).
Proof. reflexivity. Qed.

(** [read_header] from the character after the format line on. *)
Lemma read_header_marker_passed fuel filename fp :
  read_header fuel filename (marker ++ fp)
  = match skip_comments fuel (fst (getc fp)) (snd (getc fp)) with
    | None => None
    | Some (x, fp) =>
        let fp := ungetc x fp in
        let '(n, (width, height), fp) := fscanf_ld_ld fp in
        if negb (n =? 2)
        then Some (Exited SizeError
                     ("Invalid image size error '" +:+ filename +:+ "'" +:+ nl))
        else
          let '(n, rgb_component, fp) := fscanf_d fp in
          if negb (n =? 1) || negb (rgb_component =? RGB_COMPONENT_COLOR)
          then Some (Exited RangeError
                       ("'" +:+ filename
                        +:+ "' is not have a valid 255 components" +:+ nl))
          else
            match skip_line fuel fp with
            | None => None
            | Some fp => Some (Returned (width, height, fp))
            end
    end.
Proof.
  unfold read_header. rewrite fgets_marker. cbv beta iota.
  change (negb (byte_to_Z (nth 0 ["P"; "6"; newline; x00]%byte x00) =? ch "P")
          || negb (byte_to_Z (nth 1 ["P"; "6"; newline; x00]%byte x00) =? ch "6"))
    with false.
  cbv beta iota. destruct (getc fp) as [x fp']. reflexivity.
Qed.

Lemma ungetc_of_getc fp : ungetc (fst (getc fp)) (snd (getc fp)) = fp.
Proof.
  destruct fp as [|c fp]; simpl; [reflexivity |]. apply ungetc_getc.
Qed.

Lemma skip_comments_no_comment fuel fp :
  no_comment_ahead fp ->
  skip_comments (S fuel) (fst (getc fp)) (snd (getc fp)) = Some (getc fp).
Proof.
  intros Hfp. rewrite skip_comments_none by exact Hfp.
  destruct (getc fp). reflexivity.
Qed.

(** X7: comment lines between the format line and the sizes are skipped:
    the file decodes as the file without them does. *)
Theorem comment_lines_are_skipped
    (fuel : nat) (junk : nat -> PPMPixel) (fs fs' : filesystem)
    (filename : string) (comments : list (list byte)) (rest : list byte) :
  Forall one_line comments -> no_comment_ahead rest ->
  (length (comment_lines comments) < fuel)%nat ->
  fopen_rb fs filename = Some (marker ++ comment_lines comments ++ rest) ->
  fopen_rb fs' filename = Some (marker ++ rest) ->
  read_image fuel junk fs filename = read_image fuel junk fs' filename.
Proof.
  intros Hlines Hrest Hfuel Hopen Hopen'.
  unfold read_image. rewrite Hopen, Hopen'.
  rewrite !read_header_marker_passed.
  rewrite skip_comments_lines by assumption.
  destruct fuel as [|fuel]; [lia |].
  rewrite skip_comments_no_comment by assumption.
  reflexivity.
Qed.

(** ** The fields of the header *)

Lemma scan_integer_space c fp :
  isspace (byte_to_Z c) = true -> scan_integer (c :: fp) = scan_integer fp.
Proof. intros Hc. unfold scan_integer. simpl. rewrite Hc. reflexivity. Qed.

Lemma print_lu_head v :
  exists c tl, print_lu v = c :: tl /\ isdigit (byte_to_Z c) = true.
Proof.
  apply (digits_head 19 (to_ulong v) []). apply to_ulong_range.
Qed.

Lemma no_comment_ahead_print_lu v fp : no_comment_ahead (print_lu v ++ fp).
Proof.
  destruct (print_lu_head v) as (c & tl & -> & Hc).
  unfold no_comment_ahead. simpl.
  apply isdigit_range in Hc. change (ch "#") with 35. lia.
Qed.

(** The two sizes, as [%lu %lu] prints them, are read back by [%ld %ld]. *)
Lemma fscanf_sizes width height fp :
  0 <= width <= LONG_MAX -> 0 <= height <= LONG_MAX -> no_digit_ahead fp ->
  fscanf_ld_ld (print_lu width ++ " "%byte :: print_lu height ++ fp)
  = (2, (width, height), fp).
Proof.
  intros Hw Hh Hfp. unfold fscanf_ld_ld.
  rewrite (scan_integer_print_lu width) by (assumption || reflexivity).
  change (skip_space (" "%byte :: ?l)) with (skip_space l).
  destruct (print_lu_head height) as (c & tl & E & Hc).
  assert (skip_space (print_lu height ++ fp) = print_lu height ++ fp) as ->
    by (rewrite E; apply (skip_space_digit c (tl ++ fp) Hc)).
  rewrite (scan_integer_print_lu height) by assumption.
  unfold LONG_MAX in *. rewrite !to_ulong_small by lia. reflexivity.
Qed.

(** [read_header] on a format line and two sizes, up to the maximum value. *)
Lemma read_header_sizes fuel filename width height fp :
  0 <= width <= LONG_MAX -> 0 <= height <= LONG_MAX -> no_digit_ahead fp ->
  read_header (S fuel) filename
              (marker ++ print_lu width ++ " "%byte :: print_lu height ++ fp)
  = let '(n, rgb_component, fp) := fscanf_d fp in
    if negb (n =? 1) || negb (rgb_component =? RGB_COMPONENT_COLOR)
    then Some (Exited RangeError
                 ("'" +:+ filename
                  +:+ "' is not have a valid 255 components" +:+ nl))
    else
      match skip_line (S fuel) fp with
      | None => None
      | Some fp => Some (Returned (width, height, fp))
      end.
Proof.
  intros Hw Hh Hfp. rewrite read_header_marker_passed.
  rewrite skip_comments_no_comment by apply no_comment_ahead_print_lu.
  destruct (getc _) as [x fp'] eqn:E.
  assert (ungetc x fp'
          = print_lu width ++ " "%byte :: print_lu height ++ fp) as Hu.
  { rewrite <- (ungetc_of_getc (print_lu width ++ _)), E. reflexivity. }
  cbv zeta. rewrite Hu, fscanf_sizes by assumption.
  reflexivity.
Qed.

Lemma fscanf_d_number m fp :
  0 <= m <= INT_MAX -> no_digit_ahead fp ->
  fscanf_d (newline :: print_lu m ++ fp) = (1, m, fp).
Proof.
  unfold INT_MAX. intros Hm Hfp. unfold fscanf_d.
  rewrite scan_integer_space by reflexivity.
  rewrite scan_integer_print_lu by (unfold LONG_MAX; assumption || lia).
  rewrite to_int_small by lia. reflexivity.
Qed.

(** X8: a maximum colour value other than 255 ends the task with the
    message for the colour component, whatever the sizes and whatever
    follows the value. *)
Theorem maxval_other_than_255_is_rejected
    (fuel : nat) (junk : nat -> PPMPixel) (fs : filesystem) (filename : string)
    (width height m : Z) (rest : list byte) :
  0 <= width <= LONG_MAX -> 0 <= height <= LONG_MAX ->
  0 <= m <= INT_MAX -> m <> 255 -> no_digit_ahead rest ->
  fopen_rb fs filename
  = Some (marker ++ print_lu width ++ " "%byte :: print_lu height
          ++ newline :: print_lu m ++ rest) ->
  read_image (S fuel) junk fs filename
  = Some (Exited RangeError
            ("'" +:+ filename +:+ "' is not have a valid 255 components" +:+ nl)).
Proof.
  intros Hw Hh Hm Hne Hrest Hopen. unfold read_image. rewrite Hopen.
  rewrite read_header_sizes by (assumption || reflexivity).
  rewrite fscanf_d_number by assumption.
  cbv beta iota. change (negb (1 =? 1)) with false.
  unfold RGB_COMPONENT_COLOR.
  rewrite (proj2 (Z.eqb_neq m 255) Hne). reflexivity.
Qed.

(** X9: comments are skipped before the sizes only: a '#' on the line
    after the sizes is taken for the maximum colour value, and the task
    ends with the message for the colour component. *)
Theorem comment_after_sizes_is_rejected
    (fuel : nat) (junk : nat -> PPMPixel) (fs : filesystem) (filename : string)
    (width height : Z) (rest : list byte) :
  0 <= width <= LONG_MAX -> 0 <= height <= LONG_MAX ->
  fopen_rb fs filename
  = Some (marker ++ print_lu width ++ " "%byte :: print_lu height
          ++ newline :: "#"%byte :: rest) ->
  read_image (S fuel) junk fs filename
  = Some (Exited RangeError
            ("'" +:+ filename +:+ "' is not have a valid 255 components" +:+ nl)).
Proof.
  intros Hw Hh Hopen. unfold read_image. rewrite Hopen.
  rewrite read_header_sizes by (assumption || reflexivity).
  reflexivity.
Qed.

Lemma scan_integer_minus v fp :
  0 <= v <= LONG_MAX -> no_digit_ahead fp ->
  scan_integer ("-"%byte :: print_lu v ++ fp) = Some (- v, fp).
Proof.
  unfold LONG_MAX. intros Hv Hfp.
  pose proof (scan_print_lu v fp ltac:(lia) Hfp) as Hscan.
  destruct (print_lu_head v) as (c & tl & E & Hc).
  rewrite E in *. unfold scan_integer.
  change (skip_space ("-"%byte :: ?l)) with ("-"%byte :: l).
  unfold ch at 1. rewrite Z.eqb_refl. cbv beta iota.
  rewrite Hscan. change ((c :: tl) ++ fp) with (c :: (tl ++ fp)).
  cbv beta iota. rewrite Hc.
  unfold clamp_long, LONG_MAX, LONG_MIN. do 2 f_equal. lia.
Qed.

(** X10: the sizes are not checked for their sign: a width written with
    a minus sign is accepted, and the width of the image is the number
    taken as an [unsigned long]. *)
Theorem negative_width_is_accepted
    (fuel : nat) (filename : string) (a height : Z) (data : list byte) :
  0 < a <= LONG_MAX -> 0 <= height <= LONG_MAX ->
  read_header (S fuel) filename
              (marker ++ "-"%byte :: print_lu a ++ " "%byte :: print_lu height
               ++ newline :: print_lu 255 ++ newline :: data)
  = Some (Returned (2 ^ 64 - a, height, data)).
Proof.
  intros Ha Hh. rewrite read_header_marker_passed.
  rewrite skip_comments_no_comment by (unfold no_comment_ahead; discriminate).
  change (getc ("-"%byte :: ?l)) with (ch "-", l). cbv beta iota zeta.
  change (ungetc (ch "-") ?l) with ("-"%byte :: l).
  unfold fscanf_ld_ld.
  rewrite scan_integer_minus by (try reflexivity; lia).
  change (skip_space (" "%byte :: ?l)) with (skip_space l).
  destruct (print_lu_head height) as (c & tl & E & Hc).
  assert (forall fp, skip_space (print_lu height ++ fp) = print_lu height ++ fp)
    as Hskip by (intros fp; rewrite E; apply (skip_space_digit c (tl ++ fp) Hc)).
  rewrite Hskip, scan_integer_print_lu by (assumption || reflexivity).
  cbv beta iota. change (negb (2 =? 2)) with false. cbv beta iota.
  rewrite fscanf_d_number by (unfold INT_MAX; reflexivity || lia).
  cbv beta iota.
  change (negb (1 =? 1) || negb (255 =? RGB_COMPONENT_COLOR)) with false.
  cbv beta iota. rewrite skip_line_newline.
  unfold LONG_MAX in *. do 4 f_equal.
  - unfold to_ulong. replace (- a) with (2 ^ 64 - a + (-1) * 2 ^ 64) by lia.
    rewrite Z_mod_plus_full. apply Z.mod_small. lia.
  - apply to_ulong_small. lia.
Qed.

(** X11: a file that ends inside a comment line keeps [read_image] in
    the loop that waits for the end of the comment, whatever the text of
    the comment. *)
Theorem read_image_waits_in_open_comment
    (fuel : nat) (junk : nat -> PPMPixel) (fs : filesystem) (filename : string)
    (text : list byte) :
  one_line text ->
  fopen_rb fs filename = Some (marker ++ "#"%byte :: text) ->
  read_image fuel junk fs filename = None.
Proof.
  intros Htext Hopen. unfold read_image. rewrite Hopen.
  rewrite read_header_marker_passed.
  change (getc ("#"%byte :: text)) with (ch "#", text). cbn [fst snd].
  destruct fuel as [|fuel]; [reflexivity |].
  cbn [skip_comments]. rewrite Z.eqb_refl.
  rewrite skip_line_no_newline by exact Htext. reflexivity.
Qed.

(** X12: a file with a complete header but for the newline after the
    maximum colour value, and no newline in what follows, keeps
    [read_image] in the loop that waits for that newline, whatever the
    sizes. *)
Theorem read_image_waits_after_maxval
    (fuel : nat) (junk : nat -> PPMPixel) (fs : filesystem) (filename : string)
    (width height : Z) (text : list byte) :
  0 <= width <= LONG_MAX -> 0 <= height <= LONG_MAX ->
  one_line text -> no_digit_ahead text ->
  fopen_rb fs filename
  = Some (marker ++ print_lu width ++ " "%byte :: print_lu height
          ++ newline :: print_lu 255 ++ text) ->
  read_image fuel junk fs filename = None.
Proof.
  intros Hw Hh Htext Hnd Hopen. unfold read_image. rewrite Hopen.
  destruct fuel as [|fuel].
  - rewrite read_header_marker_passed. reflexivity.
  - rewrite read_header_sizes by (assumption || reflexivity).
    rewrite fscanf_d_number by (unfold INT_MAX; assumption || lia).
    cbv beta iota.
    change (negb (1 =? 1) || negb (255 =? RGB_COMPONENT_COLOR)) with false.
    cbv beta iota.
    rewrite skip_line_no_newline by exact Htext. reflexivity.
Qed.

(** ** The pixels of the file *)

Lemma triplets_app_pixel_bytes image extra :
  triplets (pixel_bytes image ++ extra) = image ++ triplets extra.
Proof.
  induction image as [|[cr cg cb] image IH]; simpl; [reflexivity |].
  f_equal. exact IH.
Qed.

Lemma read_image_file fuel junk fs filename image W H extra :
  0 <= W <= INT_MAX -> 0 <= H <= INT_MAX -> W * H <= INT_MAX ->
  length image = Z.to_nat (W * H) ->
  W * H < Z.of_nat fuel ->
  fopen_rb fs filename = Some (header W H ++ pixel_bytes image ++ extra) ->
  read_image fuel junk fs filename = Some (Returned (image, W, H)).
Proof.
  unfold INT_MAX. intros HW HH Hn Hlen Hfuel Hopen.
  assert (0 <= W * H) as Hn0 by nia.
  destruct fuel as [|fuel]; [lia |].
  rewrite (read_image_pixels (S fuel) junk fs filename _ W H
             (pixel_bytes image ++ extra) Hopen)
    by (unfold INT_MAX; try apply read_header_written; unfold LONG_MAX; lia).
  rewrite triplets_app_pixel_bytes.
  rewrite take_app_length' by lia.
  rewrite drop_ge by (rewrite malloc_pixels_length, length_app; lia).
  rewrite app_nil_r. reflexivity.
Qed.

(** X13: the bytes of a file after its width * height pixels are not
    read: the file decodes to the image its first pixels make. *)
Theorem bytes_after_the_pixels_are_ignored
    (fuel : nat) (junk : nat -> PPMPixel) (fs : filesystem) (filename : string)
    (image : list PPMPixel) (W H : Z) (extra : list byte) :
  0 <= W <= INT_MAX -> 0 <= H <= INT_MAX -> W * H <= INT_MAX ->
  length image = Z.to_nat (W * H) ->
  W * H < Z.of_nat fuel ->
  fopen_rb fs filename = Some (header W H ++ pixel_bytes image ++ extra) ->
  read_image fuel junk fs filename = Some (Returned (image, W, H)).
Proof.
  unfold INT_MAX. intros HW HH Hn Hlen Hfuel Hopen.
  assert (0 <= W * H) as Hn0 by nia.
  destruct fuel as [|fuel]; [lia |].
  rewrite (read_image_pixels (S fuel) junk fs filename _ W H
             (pixel_bytes image ++ extra) Hopen)
    by (unfold INT_MAX; try apply read_header_written; unfold LONG_MAX; lia).
  rewrite triplets_app_pixel_bytes.
  rewrite take_app_length' by lia.
  rewrite drop_ge by (rewrite malloc_pixels_length, length_app; lia).
  rewrite app_nil_r. reflexivity.
Qed.



(** ** One task *)

Lemma write_image_file image filename W H fs :
  0 <= W <= INT_MAX -> 0 <= H <= INT_MAX ->
  length image = Z.to_nat (W * H) ->
  filename ∉ unwritable fs ->
  write_image image filename W H fs
  = Written (mkFs (<[filename := header W H ++ pixel_bytes image]> (files fs))
                  (unwritable fs)).
Proof.
  unfold INT_MAX. intros HW HH Hlen Hwr.
  unfold write_image, fopen_wb. rewrite bool_decide_eq_true_2 by exact Hwr.
  fold (header W H).
  rewrite take_ge; [reflexivity |].
  rewrite length_pixel_bytes, Hlen, (to_ulong_small (3 * W)) by lia.
  apply Nat2Z.inj_le. rewrite Nat2Z.inj_mul, !Z2Nat.id by nia. lia.
Qed.

Lemma manage_image_file_good fuel env file_name wd image W H :
  well_formed_input (fs wd) (input_file_name file_name) image W H ->
  W * H < Z.of_nat fuel ->
  output_file_name file_name ∉ unwritable (fs wd) ->
  manage_image_file fuel env file_name wd
  = Some (mkWorld
            (mkFs (<[output_file_name file_name :=
                       header W H ++ pixel_bytes (convolve_image image W H)]>
                     (files (fs wd)))
                  (unwritable (fs wd)))
            (stderr wd)
            (total_elapsed_time wd + elapsed (clock_start env) (clock_end env)),
          ThreadReturned).
Proof.
  intros (HW & HH & Hn & Hlen & Hopen) Hfuel Hwr. unfold manage_image_file.
  rewrite <- (app_nil_r (pixel_bytes image)) in Hopen.
  rewrite (read_image_file fuel (img_junk env) (fs wd) _ image W H [])
    by (assumption || lia).
  unfold apply_filters.
  rewrite run_workers_convolve_image
    by (try apply fresh_buffer_length;
        assumption || (unfold LAPLACIAN_THREADS, INT_MAX; lia)).
  rewrite write_image_file
    by (try apply length_convolve_image; assumption || lia).
  reflexivity.
Qed.

(** X15: the task of a well-formed input file writes, under its output
    name, the header of the input followed by the pixels of the convolved
    image, adds the time of its pass to the total, writes nothing on
    [stderr], and its thread returns. *)
Theorem task_writes_the_convolved_image
    (fuel : nat) (env : task_env) (file_name : file_name_args) (wd : world)
    (image : list PPMPixel) (W H : Z) :
  0 < W <= INT_MAX -> 0 < H <= INT_MAX -> W * H <= INT_MAX ->
  length image = Z.to_nat (W * H) ->
  W * H < Z.of_nat fuel ->
  fopen_rb (fs wd) (input_file_name file_name)
  = Some (header W H ++ pixel_bytes image) ->
  output_file_name file_name ∉ unwritable (fs wd) ->
  manage_image_file fuel env file_name wd
  = Some (mkWorld
            (mkFs (<[output_file_name file_name :=
                       header W H ++ pixel_bytes (convolve_image image W H)]>
                     (files (fs wd)))
                  (unwritable (fs wd)))
            (stderr wd)
            (total_elapsed_time wd + elapsed (clock_start env) (clock_end env)),
          ThreadReturned).
Proof.
  intros HW HH Hn Hlen Hfuel Hopen Hwr.
  apply manage_image_file_good; unfold well_formed_input; auto 10.
Qed.

(** ** What a batch touches *)





(** ** The total time *)



(** ** The names of the outputs *)

Lemma length_digits n v acc (k : nat) :
  0 <= v < 10 ^ Z.of_nat k -> (1 <= k)%nat ->
  (length (digits n v acc) <= k + length acc)%nat.
Proof.
  revert v acc k. induction n as [|n IH]; intros v acc k Hv Hk; simpl; [lia |].
  destruct (Z.eqb_spec (v / 10) 0) as [E | Hne]; simpl; [lia |].
  destruct k as [|[|k]]; [lia | |].
  - change (10 ^ Z.of_nat 1) with 10 in Hv.
    exfalso. apply Hne. apply Z.div_small. lia.
  - specialize (IH (v / 10) (Z_to_byte (ch "0" + v mod 10) :: acc) (S k)).
    simpl length in IH.
    assert (0 <= v / 10 < 10 ^ Z.of_nat (S k)) as Hv'.
    { split; [apply Z.div_pos; lia |].
      apply Z.div_lt_upper_bound; [lia |].
      rewrite (Nat2Z.inj_succ (S k)), Z.pow_succ_r in Hv by lia. lia. }
    specialize (IH Hv' ltac:(lia)). lia.
Qed.

Lemma length_digits_ge n v acc (k : nat) :
  10 ^ Z.of_nat k <= v -> (k < n)%nat ->
  (k + 1 + length acc <= length (digits n v acc))%nat.
Proof.
  revert v acc k. induction n as [|n IH]; intros v acc k Hv Hk; [lia |].
  simpl digits. destruct k as [|k].
  - change (10 ^ Z.of_nat 0) with 1 in Hv.
    change (if v / 10 =? 0 then ?a else ?d) with (digits (S n) v acc).
    rewrite digits_app, length_app.
    destruct (digits_head n v [] ltac:(lia)) as (c & tl & -> & _).
    simpl. lia.
  - rewrite Nat2Z.inj_succ, Z.pow_succ_r in Hv by lia.
    assert (10 ^ Z.of_nat k <= v / 10)
      by (apply Z.div_le_lower_bound; lia).
    assert (0 < 10 ^ Z.of_nat k) by (apply Z.pow_pos_nonneg; lia).
    rewrite (proj2 (Z.eqb_neq (v / 10) 0)) by lia.
    specialize (IH (v / 10) (Z_to_byte (ch "0" + v mod 10) :: acc) k
                   ltac:(lia) ltac:(lia)).
    simpl length in IH. lia.
Qed.

Lemma length_print_lu v (k : nat) :
  0 <= v < 10 ^ Z.of_nat k -> v < 2 ^ 64 -> (1 <= k)%nat ->
  (length (print_lu v) <= k)%nat.
Proof.
  intros Hv Hv' Hk. unfold print_lu. rewrite to_ulong_small by lia.
  pose proof (length_digits 20 v [] k Hv Hk) as Hd.
  rewrite Nat.add_0_r in Hd. exact Hd.
Qed.

Lemma print_d_positive v :
  0 <= v <= INT_MAX -> print_d v = print_lu v.
Proof.
  unfold INT_MAX. intros Hv. unfold print_d, print_lu.
  rewrite to_int_small, to_ulong_small by lia.
  rewrite (proj2 (Z.ltb_ge v 0)) by lia. reflexivity.
Qed.

Lemma no_digit_ahead_take_ppm (n : nat) :
  no_digit_ahead (take n (list_byte_of_string ".ppm")).
Proof. destruct n; reflexivity. Qed.

(** The digits of the number in an output name are never cut. *)
Lemma output_name_bytes i :
  0 <= i < INT_MAX ->
  list_byte_of_string (output_name i)
  = list_byte_of_string "laplacian" ++ print_lu (i + 1)
    ++ take (10 - length (print_lu (i + 1))) (list_byte_of_string ".ppm").
Proof.
  intros Hi. unfold output_name.
  rewrite list_byte_of_string_of_list_byte.
  rewrite print_d_positive by lia.
  assert (length (print_lu (i + 1)) <= 10)%nat as Hlen.
  { unfold INT_MAX in Hi. apply length_print_lu; [| lia | lia].
    change (10 ^ Z.of_nat 10) with 10000000000. lia. }
  change (take 19 (list_byte_of_string "laplacian" ++ ?l))
    with (list_byte_of_string "laplacian" ++ take 10 l).
  rewrite take_app_ge by exact Hlen. reflexivity.
Qed.

Lemma output_name_inj i j :
  0 <= i < INT_MAX -> 0 <= j < INT_MAX ->
  output_name i = output_name j -> i = j.
Proof.
  intros Hi Hj E. apply (f_equal list_byte_of_string) in E.
  rewrite !output_name_bytes in E by assumption.
  apply app_inv_head in E.
  apply (f_equal (fun l => fst (scan_digits 0 l))) in E.
  unfold INT_MAX in *.
  rewrite !scan_print_lu in E by (try apply no_digit_ahead_take_ppm; lia).
  simpl in E. lia.
Qed.

(** X18: the inputs of a run get output names that differ from one
    another, so that no task writes over the output of another. *)
Theorem output_names_differ (i j : Z) :
  0 <= i < INT_MAX -> 0 <= j < INT_MAX ->
  i <> j -> output_name i <> output_name j.
Proof.
  intros Hi Hj Hne E. apply Hne. apply output_name_inj; assumption.
Qed.

(** X19: up to the 999999th input the output name is the whole of
    [laplacian<k>.ppm]; from the millionth on, the 19 characters of the
    buffer cut its extension. *)
Theorem output_name_whole_below_a_million (i : Z) :
  0 <= i < INT_MAX ->
  (i < 999999 ->
   output_name i
   = string_of_list_byte (list_byte_of_string "laplacian" ++ print_lu (i + 1)
                          ++ list_byte_of_string ".ppm"))
  /\ (999999 <= i ->
      output_name i
      <> string_of_list_byte (list_byte_of_string "laplacian" ++ print_lu (i + 1)
                              ++ list_byte_of_string ".ppm")).
Proof.
  intros Hi.
  assert (forall l1 l2, string_of_list_byte l1 = string_of_list_byte l2 -> l1 = l2)
    as Hinj.
  { intros l1 l2 E. apply (f_equal list_byte_of_string) in E.
    rewrite !list_byte_of_string_of_list_byte in E. exact E. }
  split.
  - intros Hlt.
    rewrite <- (string_of_list_byte_of_string (output_name i)).
    rewrite output_name_bytes by exact Hi.
    assert (length (print_lu (i + 1)) <= 6)%nat as Hlen.
    { unfold INT_MAX in Hi. apply length_print_lu; [| lia | lia].
      change (10 ^ Z.of_nat 6) with 1000000. lia. }
    rewrite take_ge by (simpl; lia). reflexivity.
  - intros Hge E.
    rewrite <- (string_of_list_byte_of_string (output_name i)) in E.
    apply Hinj in E. rewrite output_name_bytes in E by exact Hi.
    apply app_inv_head, app_inv_head in E.
    apply (f_equal (@length byte)) in E. rewrite length_take in E.
    simpl in E.
    assert (7 <= length (print_lu (i + 1)))%nat; [| lia].
    unfold print_lu, INT_MAX in *. rewrite to_ulong_small by lia.
    pose proof (length_digits_ge 20 (i + 1) [] 6) as Hd.
    change (10 ^ Z.of_nat 6) with 1000000 in Hd.
    specialize (Hd ltac:(lia) ltac:(lia)).
    rewrite Nat.add_0_r in Hd. exact Hd.
Qed.

(** ** A batch of well-formed inputs *)





(** ** A run of the program *)






(** ** A task on a short file *)



(** ** Missing sizes *)

Lemma scan_integer_no_number fp :
  no_number_ahead fp -> scan_integer fp = None /\ skip_space fp = fp.
Proof.
  destruct fp as [|c fp]; [split; reflexivity |].
  intros (Hs & Hd & Hm & Hp & _). unfold scan_integer. simpl.
  rewrite Hs, (proj2 (Z.eqb_neq _ _) Hm), (proj2 (Z.eqb_neq _ _) Hp), Hd.
  split; reflexivity.
Qed.

(** X23: when the format line is followed by the end of the file, or by
    a character with which no number starts, the task ends with the
    message for the size. *)
Theorem missing_sizes_are_rejected
    (fuel : nat) (junk : nat -> PPMPixel) (fs : filesystem) (filename : string)
    (fp : list byte) :
  no_number_ahead fp ->
  fopen_rb fs filename = Some (marker ++ fp) ->
  read_image (S fuel) junk fs filename
  = Some (Exited SizeError
            ("Invalid image size error '" +:+ filename +:+ "'" +:+ nl)).
Proof.
  intros Hfp Hopen. unfold read_image. rewrite Hopen.
  rewrite read_header_marker_passed.
  rewrite skip_comments_no_comment
    by (destruct fp as [|c fp]; [discriminate | apply Hfp]).
  destruct (getc fp) as [x fp'] eqn:E.
  assert (ungetc x fp' = fp) as Hu
    by (rewrite <- (ungetc_of_getc fp), E; reflexivity).
  cbv zeta. rewrite Hu. unfold fscanf_ld_ld.
  destruct (scan_integer_no_number fp Hfp) as [-> ->].
  destruct fp; reflexivity.
Qed.

(** ** Outputs as inputs *)

(** X24: the output of a task on a well-formed input is a well-formed
    input itself, with the same sizes: the program can be run on the
    files it wrote. *)
Theorem task_output_is_well_formed_input
    (fuel : nat) (env : task_env) (file_name : file_name_args) (wd wd' : world)
    (e : task_end) (image : list PPMPixel) (W H : Z) :
  well_formed_input (fs wd) (input_file_name file_name) image W H ->
  W * H < Z.of_nat fuel ->
  output_file_name file_name ∉ unwritable (fs wd) ->
  manage_image_file fuel env file_name wd = Some (wd', e) ->
  well_formed_input (fs wd') (output_file_name file_name)
                    (convolve_image image W H) W H.
Proof.
  intros Hwf Hfuel Hwr Hm.
  rewrite (manage_image_file_good fuel env file_name wd image W H Hwf Hfuel Hwr)
    in Hm.
  inversion Hm; subst. clear Hm.
  destruct Hwf as (HW & HH & Hn & Hlen & Hopen).
  repeat (split; [assumption |]).
  split; [apply length_convolve_image; assumption |].
  unfold fopen_rb. simpl. apply lookup_insert_eq.
Qed.

(** ** The further properties on sample inputs *)

Lemma worker_without_rows_is_idle_witness :
  compute_laplacian_threadfn (mkParameter red_2x2 2 2 0 0) red_2x2 = red_2x2.
Proof.
  apply (worker_without_rows_is_idle (mkParameter red_2x2 2 2 0 0) red_2x2).
  right. unfold INT_MAX. simpl. lia.
Defined.

Lemma worker_leaves_other_rows_witness :
  compute_laplacian_threadfn (mkParameter red_2x2 2 2 0 1) (malloc grey_junk 12)
    !! Z.to_nat (1 * 2 + 0)
  = malloc grey_junk 12 !! Z.to_nat (1 * 2 + 0)
  /\ length (compute_laplacian_threadfn (mkParameter red_2x2 2 2 0 1)
                                        (malloc grey_junk 12))
     = length (malloc grey_junk 12).
Proof.
  apply (worker_leaves_other_rows
           (mkParameter red_2x2 2 2 0 1) (malloc grey_junk 12) 0 1);
    unfold rows_in_image, in_rows, INT_MAX; simpl; try reflexivity; lia.
Defined.

Lemma workers_share_no_pixel_witness :
  (0, 0) ∉ thread_steps (make_param LAPLACIAN_THREADS [] 2 50 1).
Proof.
  apply (workers_share_no_pixel LAPLACIAN_THREADS [] 2 50 0 1
           (make_param LAPLACIAN_THREADS [] 2 50 0)
           (make_param LAPLACIAN_THREADS [] 2 50 1) (0, 0)).
  - unfold LAPLACIAN_THREADS, INT_MAX. lia.
  - unfold INT_MAX. lia.
  - reflexivity.
  - reflexivity.
  - discriminate.
  - apply elem_of_thread_steps. vm_compute.
    repeat split; discriminate.
Defined.

Lemma partition_sizes_balanced_witness :
  (2 = if Z.of_nat 0 =? LAPLACIAN_THREADS - 1
       then 50 / LAPLACIAN_THREADS + 50 mod LAPLACIAN_THREADS
       else 50 / LAPLACIAN_THREADS)
  /\ Z.abs (2 - 6) < LAPLACIAN_THREADS.
Proof.
  apply (partition_sizes_balanced LAPLACIAN_THREADS 50 0 22 0 2 44 6);
    unfold LAPLACIAN_THREADS, INT_MAX; try reflexivity; lia.
Defined.

Lemma empty_image_pass_witness :
  run_workers (params LAPLACIAN_THREADS [] 0 5) red_2x2 = red_2x2
  /\ fst (apply_filters LAPLACIAN_THREADS grey_junk [] 0 5
                        (mkTimeval 0 0) (mkTimeval 1 0) 0) = [].
Proof.
  apply (empty_image_pass LAPLACIAN_THREADS grey_junk [] 0 5
           (mkTimeval 0 0) (mkTimeval 1 0) 0 red_2x2);
    unfold LAPLACIAN_THREADS, INT_MAX; lia.
Defined.

Lemma comment_lines_are_skipped_witness :
  read_image 10 grey_junk (mkFs {["f.ppm"%string := commented_file]} ∅) "f.ppm"
  = read_image 10 grey_junk (mkFs {["f.ppm"%string := plain_file]} ∅) "f.ppm".
Proof.
  apply (comment_lines_are_skipped 10 grey_junk _ _ "f.ppm"
           [["m"; "a"; "d"; "e"]%byte] sizes_1x1).
  - repeat constructor; discriminate.
  - discriminate.
  - simpl. lia.
  - apply lookup_singleton_eq.
  - apply lookup_singleton_eq.
Defined.

Lemma maxval_other_than_255_is_rejected_witness :
  read_image 1 grey_junk (mkFs {["deep.ppm"%string := deep_file]} ∅) "deep.ppm"
  = Some (Exited RangeError
            ("'" +:+ "deep.ppm" +:+ "' is not have a valid 255 components" +:+ nl)).
Proof.
  apply (maxval_other_than_255_is_rejected 0 grey_junk
           (mkFs {["deep.ppm"%string := deep_file]} ∅) "deep.ppm"
           1 1 65535 [newline; x10; x20; x30]%byte);
    unfold LONG_MAX, INT_MAX; try lia.
  - reflexivity.
  - apply lookup_singleton_eq.
Defined.

Lemma comment_after_sizes_is_rejected_witness :
  read_image 1 grey_junk (mkFs {["late.ppm"%string := late_comment_file]} ∅)
             "late.ppm"
  = Some (Exited RangeError
            ("'" +:+ "late.ppm" +:+ "' is not have a valid 255 components" +:+ nl)).
Proof.
  apply (comment_after_sizes_is_rejected 0 grey_junk
           (mkFs {["late.ppm"%string := late_comment_file]} ∅) "late.ppm"
           1 1 ["c"; newline; "2"; "5"; "5"; newline]%byte);
    unfold LONG_MAX; try lia.
  apply lookup_singleton_eq.
Defined.

Lemma negative_width_is_accepted_witness :
  read_header 1 "n.ppm"
              (marker ++ "-"%byte :: print_lu 2 ++ " "%byte :: print_lu 3
               ++ newline :: print_lu 255 ++ newline :: [x00; x00; x00]%byte)
  = Some (Returned (2 ^ 64 - 2, 3, [x00; x00; x00]%byte)).
Proof.
  apply (negative_width_is_accepted 0 "n.ppm" 2 3 [x00; x00; x00]%byte);
    unfold LONG_MAX; lia.
Defined.

Lemma read_image_waits_in_open_comment_witness :
  read_image 1000 grey_junk (mkFs {["open.ppm"%string := ends_in_comment]} ∅)
             "open.ppm"
  = None.
Proof.
  apply (read_image_waits_in_open_comment 1000 grey_junk
           (mkFs {["open.ppm"%string := ends_in_comment]} ∅) "open.ppm"
           ["a"; "b"; "c"]%byte).
  - repeat constructor; discriminate.
  - apply lookup_singleton_eq.
Defined.

Lemma read_image_waits_after_maxval_witness :
  read_image 1000 grey_junk (mkFs {["cut.ppm"%string := cut_file]} ∅) "cut.ppm"
  = None.
Proof.
  apply (read_image_waits_after_maxval 1000 grey_junk
           (mkFs {["cut.ppm"%string := cut_file]} ∅) "cut.ppm" 2 2 []);
    unfold LONG_MAX; try lia.
  - constructor.
  - exact I.
  - apply lookup_singleton_eq.
Defined.

Lemma bytes_after_the_pixels_are_ignored_witness :
  read_image 10 grey_junk (mkFs {["long.ppm"%string := long_file]} ∅) "long.ppm"
  = Some (Returned (red_2x2, 2, 2)).
Proof.
  apply (bytes_after_the_pixels_are_ignored 10 grey_junk
           (mkFs {["long.ppm"%string := long_file]} ∅) "long.ppm"
           red_2x2 2 2 [x01; x02]%byte);
    unfold INT_MAX; try reflexivity; lia.
Defined.


Lemma task_writes_the_convolved_image_witness :
  manage_image_file 10 sample_env (make_args 0 "a.ppm") (mkWorld sample_fs [] 0)
  = Some (mkWorld
            (mkFs (<[output_file_name (make_args 0 "a.ppm") :=
                       header 2 2 ++ pixel_bytes (convolve_image red_2x2 2 2)]>
                     (files (fs (mkWorld sample_fs [] 0))))
                  (unwritable (fs (mkWorld sample_fs [] 0))))
            (stderr (mkWorld sample_fs [] 0))
            (total_elapsed_time (mkWorld sample_fs [] 0)
             + elapsed (clock_start sample_env) (clock_end sample_env)),
          ThreadReturned).
Proof.
  apply (task_writes_the_convolved_image 10 sample_env (make_args 0 "a.ppm")
           (mkWorld sample_fs [] 0) red_2x2 2 2);
    unfold INT_MAX; try reflexivity; try lia.
  apply not_elem_of_empty.
Defined.



Lemma output_names_differ_witness : output_name 0 <> output_name 1.
Proof.
  apply (output_names_differ 0 1); unfold INT_MAX; lia.
Defined.

Lemma output_name_whole_below_a_million_witness :
  (4 < 999999 ->
   output_name 4
   = string_of_list_byte (list_byte_of_string "laplacian" ++ print_lu (4 + 1)
                          ++ list_byte_of_string ".ppm"))
  /\ (999999 <= 4 ->
      output_name 4
      <> string_of_list_byte (list_byte_of_string "laplacian" ++ print_lu (4 + 1)
                              ++ list_byte_of_string ".ppm")).
Proof.
  apply (output_name_whole_below_a_million 4). unfold INT_MAX. lia.
Defined.




Lemma missing_sizes_are_rejected_witness :
  read_image 1 grey_junk (mkFs {["w.ppm"%string := wordy_file]} ∅) "w.ppm"
  = Some (Exited SizeError ("Invalid image size error '" +:+ "w.ppm" +:+ "'" +:+ nl)).
Proof.
  apply (missing_sizes_are_rejected 0 grey_junk
           (mkFs {["w.ppm"%string := wordy_file]} ∅) "w.ppm"
           ["w"; "i"; "d"; "e"; newline]%byte).
  - repeat split; discriminate.
  - apply lookup_singleton_eq.
Defined.

Lemma task_output_is_well_formed_input_witness :
  well_formed_input (fs after_first_task)
                    (output_file_name (make_args 0 "a.ppm"))
                    (convolve_image red_2x2 2 2) 2 2.
Proof.
  apply (task_output_is_well_formed_input 10 sample_env (make_args 0 "a.ppm")
           (mkWorld sample_fs [] 0) after_first_task ThreadReturned
           red_2x2 2 2).
  - unfold well_formed_input, INT_MAX. repeat split; try reflexivity; lia.
  - lia.
  - apply not_elem_of_empty.
  - vm_compute. reflexivity.
Defined.
